(** * Lamport's distributed lock (swfrench/lamport-go): model and properties

    The development follows the two Go files of package [lamport]: the message
    type with its [heap.Interface] implementation, and the lock state machine.
    Go's [int] is taken at its 64-bit width; values are integers of [Z] and
    the one arithmetic operation of the package ([state.time += 1]) wraps
    around explicitly.  Run-time failures (index out of range, [log.Fatal], a
    mutex that is already held) are results of the operations.  [Release] is
    [sendReleaseMsg]; the goroutine of [Start] and the polling loops of
    [Acquire] and [serviceMessage] hand the state to the operations modelled
    here, each run under the mutex. *)

From Stdlib Require Import ZArith Lia.
From stdpp Require Import base option list.
From Equations Require Import Equations.

Local Open Scope Z_scope.

(** ** Machine integers *)

Module GoInt.

Definition min_int : Z := - 2 ^ 63.
Definition max_int : Z := 2 ^ 63 - 1.

(** Two's complement wrap-around of a 64-bit signed integer. *)
Definition wrap (z : Z) : Z := (z + 2 ^ 63) `mod` 2 ^ 64 - 2 ^ 63.

(** [x + y] on Go's [int]. *)
Definition add (x y : Z) : Z := wrap (x + y).

(** [a[i]] for an [int] index into a slice of length [n]: the position, or
    [None] where Go panics with "index out of range". *)
Definition index (i : Z) (n : nat) : option nat :=
  if decide (0 ≤ i < Z.of_nat n) then Some (Z.to_nat i) else None.

End GoInt.

(** ** Messages and the request heap (message.go) *)

(** [type Message struct { Type int; Proc int; Time int }] *)
Record Message : Type := mkMessage {
  Type_ : Z;   (* Message type *)
  Proc : Z;    (* Origin process *)
  Time : Z     (* Logical time on origin *)
}.

(** The [iota] constants. *)
Definition MessageRequest : Z := 0.
Definition MessageRelease : Z := 1.
Definition MessageAck : Z := 2.

(** [type MessageHeap []Message]: the slice is a list of messages, and the
    methods that make it a [heap.Interface] are the module's functions. *)
Module MessageHeap.

(** [func (mh MessageHeap) Len() int] *)
Definition Len (mh : list Message) : nat := length mh.

(** The body of [Less] on the two elements it reads. *)
Definition less (a b : Message) : bool :=
  if Time a <? Time b then true else Proc a <? Proc b.

(** [func (mh MessageHeap) Less(i, j int) bool]; [None] is the index panic. *)
Definition Less (mh : list Message) (i j : nat) : option bool :=
  a ← mh !! i; b ← mh !! j; Some (less a b).

(** [func (mh MessageHeap) Swap(i, j int)] *)
Definition Swap (mh : list Message) (i j : nat) : option (list Message) :=
  a ← mh !! i; b ← mh !! j; Some (<[j := a]> (<[i := b]> mh)).

(** [func (mh *MessageHeap) Push(x interface{})] *)
Definition Push (mh : list Message) (x : Message) : list Message := mh ++ [x].

(** [func (mh *MessageHeap) Pop() interface{}]: the last element and the
    slice without it; [prev[n-1]] panics on the empty slice. *)
Definition Pop (mh : list Message) : option (Message * list Message) :=
  m ← last mh; Some (m, take (length mh - 1)%nat mh).

End MessageHeap.

(** ** container/heap of the Go standard library

    Positions are natural numbers: the library computes the parent of [j] as
    [(j - 1) / 2], which is [0] at [j = 0] both with Go's truncating division
    and with truncated subtraction, and the overflow guard [j1 < 0] of [down]
    cannot fire below [2^62] elements. *)
Module heap.

Definition parent (j : nat) : nat := ((j - 1) `div` 2)%nat.

Lemma parent_lt j : parent j ≠ j → (parent j < j)%nat.
Proof.
  unfold parent. intros Hne.
  destruct j as [|j]; [done|].
  replace (S j - 1)%nat with j in * by lia.
  pose proof (Nat.Div0.div_le_upper_bound j 2 j). lia.
Qed.

(** [func up(h Interface, j int)] *)
Equations? up (mh : list Message) (j : nat) : option (list Message)
  by wf j lt :=
  up mh j with decide (parent j = j) := {
    | left _ := Some mh
    | right Hne with MessageHeap.Less mh j (parent j) := {
        | None := None
        | Some false := Some mh
        | Some true with MessageHeap.Swap mh (parent j) j := {
            | None := None
            | Some mh' := up mh' (parent j) } } }.
Proof. by apply parent_lt. Qed.

(** The test [j2 < n && h.Less(j2, j1)] of [down], with [j2 = j1 + 1]. *)
Definition right_first (mh : list Message) (j1 n : nat) : option bool :=
  if decide (j1 + 1 < n)%nat then MessageHeap.Less mh (j1 + 1) j1
  else Some false.

(** [j := j1; if ... { j = j2 }] *)
Definition child (j1 : nat) (r : bool) : nat :=
  if r then (j1 + 1)%nat else j1.

(** [func down(h Interface, i0, n int) bool]; the boolean it returns is
    read by [heap.Fix] and [heap.Remove] only and is left out. *)
Equations? down (mh : list Message) (i n : nat) : option (list Message)
  by wf (n - i)%nat lt :=
  down mh i n with decide (n ≤ 2 * i + 1)%nat := {
    | left _ := Some mh
    | right Hlt with right_first mh (2 * i + 1) n := {
        | None := None
        | Some r with MessageHeap.Less mh (child (2 * i + 1) r) i := {
            | None := None
            | Some false := Some mh
            | Some true with MessageHeap.Swap mh i (child (2 * i + 1) r) := {
                | None := None
                | Some mh' := down mh' (child (2 * i + 1) r) n } } } }.
Proof. unfold child. destruct r; lia. Qed.

(** [func Init(h Interface)]: [down] from position [n/2 - 1] to [0]. *)
Definition Init (mh : list Message) : option (list Message) :=
  let n := MessageHeap.Len mh in
  foldl (λ acc i, h ← acc; down h i n) (Some mh)
    (reverse (seq 0 (n `div` 2))).

(** [func Push(h Interface, x any)] *)
Definition Push (mh : list Message) (x : Message) : option (list Message) :=
  let mh' := MessageHeap.Push mh x in
  up mh' (MessageHeap.Len mh' - 1)%nat.

(** [func Pop(h Interface) any], with [n := h.Len() - 1]; on the empty heap
    [n] is [-1] and [h.Swap(0, -1)] panics. *)
Definition Pop (mh : list Message) : option (Message * list Message) :=
  match MessageHeap.Len mh with
  | O => None
  | S n =>
      mh1 ← MessageHeap.Swap mh 0 n;
      mh2 ← down mh1 0 n;
      MessageHeap.Pop mh2
  end.

Lemma Swap_length mh i j mh' :
  MessageHeap.Swap mh i j = Some mh' → length mh' = length mh.
Proof.
  unfold MessageHeap.Swap. intros H. simplify_option_eq.
  by rewrite !length_insert.
Qed.

Lemma down_length mh i n mh' : down mh i n = Some mh' → length mh' = length mh.
Proof.
  funelim (down mh i n); try congruence.
  intros Hd. rewrite (H _ Hd). by eapply Swap_length.
Qed.

Lemma Pop_length mh m mh' :
  Pop mh = Some (m, mh') → (length mh' < length mh)%nat.
Proof.
  unfold Pop, MessageHeap.Len. destruct (length mh) as [|n] eqn:Hn; [done|].
  intros H. simplify_option_eq.
  match goal with
  | H1 : MessageHeap.Swap _ _ _ = Some _, H2 : down _ _ _ = Some _ |- _ =>
      apply Swap_length in H1; apply down_length in H2
  end.
  unfold MessageHeap.Pop in *. simplify_option_eq.
  rewrite length_take. lia.
Qed.

End heap.

(** ** The lock state machine (lamport.go) *)

(** [type LamportLockState struct].  The channels are the buffered inboxes of
    all processes, each with the messages sent and not yet received, oldest
    first; [Start] documents that they are buffered so that sends do not
    block, and a send appends to the buffer.  The mutex is [true] while
    held. *)
Record LamportLockState : Type := mkState {
  time : Z;
  proc : Z;
  seen : list Z;
  chns : list (list Message);
  reqs : list Message;
  lock : bool
}.

(** How a call ends without returning. *)
Inductive Halt : Type :=
  | LogFatal       (* [log.Fatal]: the process exits *)
  | RuntimePanic   (* index out of range, unlock of an unlocked mutex *)
  | Blocked.       (* [Lock] on a mutex that is held *)

(** The result of running an operation: a value with the state after it, or
    the halt with the state at that point. *)
Inductive Result (A : Type) : Type :=
  | Ret (a : A) (s : LamportLockState)
  | Stop (h : Halt) (s : LamportLockState).
Arguments Ret {A} a s.
Arguments Stop {A} h s.

Definition M (A : Type) : Type := LamportLockState → Result A.

#[global] Instance M_ret : MRet M := λ A a s, Ret a s.
#[global] Instance M_bind : MBind M := λ A B f m s,
  match m s with
  | Ret a s' => f a s'
  | Stop h s' => Stop h s'
  end.

Definition get : M LamportLockState := λ s, Ret s s.
Definition halt {A} (h : Halt) : M A := λ s, Stop h s.

(** The state in which a run ends, returned or halted. *)
Definition final {A} (r : Result A) : LamportLockState :=
  match r with Ret _ s => s | Stop _ s => s end.

Definition set_time (t : Z) (s : LamportLockState) : LamportLockState :=
  mkState t (proc s) (seen s) (chns s) (reqs s) (lock s).
Definition set_seen (v : list Z) (s : LamportLockState) : LamportLockState :=
  mkState (time s) (proc s) v (chns s) (reqs s) (lock s).
Definition set_chns (c : list (list Message)) (s : LamportLockState)
  : LamportLockState :=
  mkState (time s) (proc s) (seen s) c (reqs s) (lock s).
Definition set_reqs (q : list Message) (s : LamportLockState)
  : LamportLockState :=
  mkState (time s) (proc s) (seen s) (chns s) q (lock s).
Definition set_lock (b : bool) (s : LamportLockState) : LamportLockState :=
  mkState (time s) (proc s) (seen s) (chns s) (reqs s) b.

(** [state.lock.Lock()] *)
Definition Lock : M unit := λ s,
  if lock s then Stop Blocked s else Ret tt (set_lock true s).

(** [state.lock.Unlock()] *)
Definition Unlock : M unit := λ s,
  if lock s then Ret tt (set_lock false s) else Stop RuntimePanic s.

(** [state.time += 1] *)
Definition advance : M unit := λ s, Ret tt (set_time (GoInt.add (time s) 1) s).

(** [for p, chn := range chns { if p != self { chn <- m } }] on the buffers. *)
Definition deliver (self : Z) (m : Message) (chns : list (list Message))
  : list (list Message) :=
  imap (λ p chn, if decide (Z.of_nat p ≠ self) then chn ++ [m] else chn) chns.

(** The broadcast loop of [sendRequestMsg] and [sendReleaseMsg]. *)
Definition broadcast (m : Message) : M unit := λ s,
  Ret tt (set_chns (deliver (proc s) m (chns s)) s).

(** [state.chns[target] <- r] *)
Definition send (target : Z) (r : Message) : M unit := λ s,
  match GoInt.index target (length (chns s)) with
  | Some i => Ret tt (set_chns (alter (λ chn, chn ++ [r]) i (chns s)) s)
  | None => Stop RuntimePanic s
  end.

(** [heap.Push(state.reqs, m)] *)
Definition pushReq (m : Message) : M unit := λ s,
  match heap.Push (reqs s) m with
  | Some q => Ret tt (set_reqs q s)
  | None => Stop RuntimePanic s
  end.

(** [heap.Pop(state.reqs)] *)
Definition popReq : M Message := λ s,
  match heap.Pop (reqs s) with
  | Some (m, q) => Ret m (set_reqs q s)
  | None => Stop RuntimePanic s
  end.

(** [func initState(p int, chns []chan Message) *LamportLockState].  The
    queue is [&MessageHeap{}] after [heap.Init], which runs no [down] on the
    empty heap and leaves it empty ([HeapFacts.Init_nil]). *)
Definition initState (p : Z) (chns : list (list Message)) : LamportLockState :=
  {| time := 1;
     proc := p;
     seen := replicate (length chns) 0;
     chns := chns;
     reqs := [];
     lock := false |}.

(** [func (state *LamportLockState) sendRequestMsg()] *)
Definition sendRequestMsg : M unit :=
  Lock;;
  advance;;
  s ← get;
  let m := {| Type_ := MessageRequest; Time := time s; Proc := proc s |} in
  broadcast m;;
  pushReq m;;
  Unlock.

(** The loop of [allProcessesSeen] from position [p] on. *)
Fixpoint allSeenFrom (self t : Z) (p : nat) (seen : list Z) : bool :=
  match seen with
  | [] => true
  | v :: rest =>
      if decide (Z.of_nat p ≠ self) then
        if decide (v < t) then false else allSeenFrom self t (S p) rest
      else allSeenFrom self t (S p) rest
  end.

(** [func (state *LamportLockState) allProcessesSeen(time int) bool] *)
Definition allProcessesSeen (s : LamportLockState) (t : Z) : bool :=
  allSeenFrom (proc s) t 0 (seen s).

(** [func (state *LamportLockState) haveLock() bool] *)
Definition haveLock : M bool :=
  Lock;;
  s ← get;
  match reqs s with
  | m :: _ =>
      if decide (Proc m = proc s) then
        if allProcessesSeen s (Time m) then Unlock;; mret true
        else Unlock;; mret false
      else Unlock;; mret false
  | [] => Unlock;; mret false
  end.

(** [func (state *LamportLockState) sendReleaseMsg()] *)
Definition sendReleaseMsg : M unit :=
  held ← haveLock;
  (if held : bool then mret tt else halt LogFatal);;
  Lock;;
  advance;;
  s ← get;
  let m := {| Type_ := MessageRelease; Time := time s; Proc := proc s |} in
  broadcast m;;
  popReq;;
  Unlock.

(** [func (state *LamportLockState) sendAckMsg(target int)] *)
Definition sendAckMsg (target : Z) : M unit :=
  advance;;
  s ← get;
  let r := {| Type_ := MessageAck; Time := time s; Proc := proc s |} in
  send target r.

(** [state.seen[m.Proc] = m.Time] *)
Definition setSeen (p t : Z) : M unit := λ s,
  match GoInt.index p (length (seen s)) with
  | Some i => Ret tt (set_seen (<[i := t]> (seen s)) s)
  | None => Stop RuntimePanic s
  end.

(** [if m.Time > state.time { state.time = m.Time }] *)
Definition mergeTime (t : Z) : M unit := λ s,
  if decide (t > time s) then Ret tt (set_time t s) else Ret tt s.

(** A value together with the equation that names it, for the recursion of
    [drain] on what [heap.Pop] returns. *)
Definition inspect {A : Type} (x : A) : {y : A | x = y} := exist _ x eq_refl.

(** The first loop of the release branch of [processMessage]: pop until the
    heap is empty, keeping the requests of the other processes in pop
    order.  It returns the heap it ends with and the kept requests. *)
Equations? drain (q : list Message) (p : Z) (kept : list Message)
  : option (list Message * list Message) by wf (length q) lt :=
  drain q p kept with decide (0 < MessageHeap.Len q)%nat := {
    | right _ := Some (q, kept)
    | left _ with inspect (heap.Pop q) := {
        | exist _ None _ := None
        | exist _ (Some (req, q')) Hpop :=
            drain q' p
              (if decide (Proc req ≠ p) then kept ++ [req] else kept) } }.
Proof. by eapply heap.Pop_length. Qed.

(** The second loop: [for _, req := range kept { heap.Push(state.reqs, req) }] *)
Fixpoint refill (kept : list Message) (q : list Message)
  : option (list Message) :=
  match kept with
  | [] => Some q
  | req :: rest => q' ← heap.Push q req; refill rest q'
  end.

(** The release branch as a whole, on the request heap.  The two loops run
    without panic ([QueueFacts.purge_spec]), so the state of the panic
    branches is never reached. *)
Definition purge (p : Z) : M unit := λ s,
  match drain (reqs s) p [] with
  | Some (q, kept) =>
      match refill kept q with
      | Some q' => Ret tt (set_reqs q' s)
      | None => Stop RuntimePanic s
      end
  | None => Stop RuntimePanic s
  end.

(** [func (state *LamportLockState) processMessage(m Message)] *)
Definition processMessage (m : Message) : M unit :=
  setSeen (Proc m) (Time m);;
  mergeTime (Time m);;
  if decide (Type_ m = MessageRequest) then
    pushReq m;;
    sendAckMsg (Proc m)
  else if decide (Type_ m = MessageRelease) then
    purge (Proc m)
  else mret tt.

(** Processing the messages of a list one after the other, as successive
    calls of [processMessage] do. *)
Fixpoint processAll (ms : list Message) : M unit :=
  match ms with
  | [] => mret tt
  | m :: rest => processMessage m;; processAll rest
  end.

(** The [select] of [serviceMessage]: a receive from the peer's own inbox
    that does not block.  [state.chns[state.proc]] is evaluated first and
    panics out of range; with a message buffered the oldest one is taken,
    otherwise the [default] case runs. *)
Definition tryRecv : M (option Message) := λ s,
  match GoInt.index (proc s) (length (chns s)) with
  | Some i =>
      match chns s !! i with
      | Some (m :: rest) => Ret (Some m) (set_chns (<[i := rest]> (chns s)) s)
      | _ => Ret None s
      end
  | None => Stop RuntimePanic s
  end.

(** [func (state *LamportLockState) serviceMessage()] *)
Definition serviceMessage : M unit :=
  Lock;;
  r ← tryRecv;
  match r with
  | Some m => processMessage m
  | None => mret tt
  end;;
  Unlock.

(** [n] rounds of the loop of [Start], which calls [serviceMessage] (and
    sleeps) for ever. *)
Fixpoint serviceN (n : nat) : M unit :=
  match n with
  | O => mret tt
  | S k => serviceMessage;; serviceN k
  end.

(** [func (state *LamportLockState) Release()] *)
Definition Release : M unit := sendReleaseMsg.

(** ** Vocabulary of the properties *)

(** The value [haveLock] returns in a state. *)
Definition holds (s : LamportLockState) : bool :=
  match reqs s with
  | m :: _ => bool_decide (Proc m = proc s) && allProcessesSeen s (Time m)
  | [] => false
  end.

(** The logical times of the messages of [ms] that come from peer [p], in
    the order of receipt. *)
Definition timesFrom (p : nat) (ms : list Message) : list Z :=
  Time <$> filter (λ m, Proc m = Z.of_nat p) ms.

(** The time of the last message received from [p], [0] when there is none. *)
Definition latestFrom (p : nat) (ms : list Message) : Z :=
  default 0 (last (timesFrom p ms)).

(** The highest time among the messages received from [p], [0] when there is
    none. *)
Definition highestFrom (p : nat) (ms : list Message) : Z :=
  match timesFrom p ms with
  | [] => 0
  | t :: ts => foldr Z.max t ts
  end.

(** The times of a list do not decrease along it. *)
Definition nonDecreasing (ts : list Z) : Prop :=
  ∀ i j a b, (i ≤ j)%nat → ts !! i = Some a → ts !! j = Some b → a ≤ b.








(** The requests of the three-peer scenario. *)
Definition req0 : Message := mkMessage MessageRequest 0 5.
Definition req1 : Message := mkMessage MessageRequest 1 3.
Definition req2 : Message := mkMessage MessageRequest 2 3.

(** [n] successive calls of [heap.Pop], with what they return in order. *)
Fixpoint popN (n : nat) (q : list Message) : option (list Message) :=
  match n with
  | O => Some []
  | S n' => '(m, q') ← heap.Pop q; l ← popN n' q'; Some (m :: l)
  end.

(** States used as examples. *)
Definition holding : LamportLockState :=
  mkState 6 0 [0; 7; 9] [[]; []; []] [mkMessage MessageRequest 0 5] false.

Definition threeQueued : LamportLockState :=
  mkState 9 0 [0; 4; 5] [[]; []; []]
    [mkMessage MessageRequest 1 4; mkMessage MessageRequest 2 5;
     mkMessage MessageRequest 0 6] false.


(** The strict lexicographic order on (Time, Proc). *)
Definition lexBefore (a b : Message) : Prop :=
  Time a < Time b ∨ (Time a = Time b ∧ Proc a < Proc b).

(** ** A system of peers

    The peers of one program share the slice of channels: the inboxes are
    kept once, and an operation of a peer runs on the peer's own fields with
    the inboxes as its [chns], which afterwards are the inboxes again.  The
    task of a peer follows the demo: [Acquire], which sends the request and
    polls [haveLock] until it returns [true], then [Release]; the servicing
    goroutine of [Start] calls [serviceMessage] at any time.  The operations
    of a peer exclude each other by its mutex, so a step of the system is one
    operation of one peer. *)

(** Where the task of a peer stands. *)
Inductive Phase : Type :=
  | Idle       (* before [Acquire], or after [Release] *)
  | Waiting    (* in the polling loop of [Acquire] *)
  | Holding.   (* [Acquire] has returned *)

Record World : Type := mkWorld {
  peers : list (LamportLockState * Phase);
  inboxes : list (list Message)
}.

(** What a peer does in one step. *)
Inductive Action : Type :=
  | DoRequest    (* [Acquire] calls [sendRequestMsg] *)
  | DoPoll       (* [Acquire] calls [haveLock] *)
  | DoService    (* the servicing loop calls [serviceMessage] *)
  | DoRelease.   (* the task calls [Release] *)

(** How a step of the system ends. *)
Inductive WResult : Type :=
  | Next (w : World)
  | Halted (h : Halt)
  | Disabled.

(** The world after peer [i] has run to the state [s'], now in phase [ph]. *)
Definition settle (w : World) (i : nat) (s' : LamportLockState) (ph : Phase)
  : World :=
  mkWorld (<[i := (s', ph)]> (peers w)) (chns s').

(** One operation of peer [i]. *)
Definition wstep (i : nat) (a : Action) (w : World) : WResult :=
  match peers w !! i with
  | None => Disabled
  | Some (s, ph) =>
      let s0 := set_chns (inboxes w) s in
      match a, ph with
      | DoRequest, Idle =>
          match sendRequestMsg s0 with
          | Ret _ s' => Next (settle w i s' Waiting)
          | Stop h _ => Halted h
          end
      | DoPoll, Waiting =>
          match haveLock s0 with
          | Ret b s' => Next (settle w i s' (if b then Holding else Waiting))
          | Stop h _ => Halted h
          end
      | DoService, _ =>
          match serviceMessage s0 with
          | Ret _ s' => Next (settle w i s' ph)
          | Stop h _ => Halted h
          end
      | DoRelease, Holding =>
          match Release s0 with
          | Ret _ s' => Next (settle w i s' Idle)
          | Stop h _ => Halted h
          end
      | _, _ => Disabled
      end
  end.

(** [n] peers as the demo starts them: peer [p] is [Start(p, chs)] on the
    [n] empty channels. *)
Definition startWorld (n : nat) : World :=
  mkWorld ((λ p, (initState (Z.of_nat p) (replicate n []), Idle)) <$> seq 0 n)
          (replicate n []).

(** The worlds a system of [n] peers gets to. *)
Inductive reachable (n : nat) : World → Prop :=
  | reach_start : reachable n (startWorld n)
  | reach_step w i a w' :
      reachable n w → wstep i a w = Next w' → reachable n w'.

(** A schedule run from a world, as far as every step returns. *)
Fixpoint exec (sched : list (nat * Action)) (w : World) : option World :=
  match sched with
  | [] => Some w
  | (i, a) :: rest =>
      match wstep i a w with
      | Next w' => exec rest w'
      | _ => None
      end
  end.

(** The phase of peer [i]. *)
Definition phaseOf (w : World) (i : nat) : option Phase :=
  snd <$> peers w !! i.




(** The schedule of two peers used as an example. *)
Definition bothHolding : list (nat * Action) :=
  [(1%nat, DoRequest); (0%nat, DoService); (0%nat, DoRequest);
   (1%nat, DoService); (1%nat, DoPoll); (1%nat, DoService);
   (0%nat, DoService); (0%nat, DoPoll)].

(** ** Facts about container/heap on a message heap *)

Module HeapFacts.
Import heap.

Lemma Less_is_Some (mh : list Message) i j :
  (i < length mh)%nat → (j < length mh)%nat →
  is_Some (MessageHeap.Less mh i j).
Proof.
  intros [a Ha]%lookup_lt_is_Some_2 [b Hb]%lookup_lt_is_Some_2.
  unfold MessageHeap.Less. rewrite Ha, Hb. by eexists.
Qed.

Lemma Less_None_inv (mh : list Message) i j :
  MessageHeap.Less mh i j = None → (length mh ≤ i)%nat ∨ (length mh ≤ j)%nat.
Proof.
  intros H. destruct (decide (i < length mh)%nat); [|lia].
  destruct (decide (j < length mh)%nat); [|lia].
  destruct (Less_is_Some mh i j) as [? ?]; congruence.
Qed.

Lemma Swap_is_Some (mh : list Message) i j :
  (i < length mh)%nat → (j < length mh)%nat →
  is_Some (MessageHeap.Swap mh i j).
Proof.
  intros [a Ha]%lookup_lt_is_Some_2 [b Hb]%lookup_lt_is_Some_2.
  unfold MessageHeap.Swap. rewrite Ha, Hb. by eexists.
Qed.

Lemma Swap_perm (mh mh' : list Message) i j :
  MessageHeap.Swap mh i j = Some mh' → mh' ≡ₚ mh.
Proof.
  unfold MessageHeap.Swap. intros H. simplify_option_eq.
  by eapply Permutation_insert_swap.
Qed.

Lemma Swap_frame (mh mh' : list Message) i j k :
  MessageHeap.Swap mh i j = Some mh' → k ≠ i → k ≠ j → mh' !! k = mh !! k.
Proof.
  unfold MessageHeap.Swap. intros H ??. simplify_option_eq.
  by rewrite !list_lookup_insert_ne.
Qed.

Lemma up_perm mh j mh' : up mh j = Some mh' → mh' ≡ₚ mh.
Proof.
  funelim (up mh j); try congruence.
  - intros [= <-]. done.
  - intros [= <-]. done.
  - intros Hu. rewrite (H _ Hu). by eapply Swap_perm.
Qed.

Lemma up_is_Some mh j : (j < length mh)%nat → is_Some (up mh j).
Proof.
  funelim (up mh j); intros Hj; try (by eexists);
    pose proof (parent_lt j Hne) as Hp.
  - apply Less_None_inv in Heq. lia.
  - apply H. erewrite Swap_length by done. lia.
  - destruct (Swap_is_Some mh (parent j) j) as [? ?]; [lia|lia|congruence].
Qed.

Lemma right_first_is_Some mh j1 n :
  (n ≤ length mh)%nat → is_Some (right_first mh j1 n).
Proof.
  intros Hn. unfold right_first. case_decide; [|by eexists].
  apply Less_is_Some; lia.
Qed.

Lemma child_bounds mh j1 n r :
  (j1 < n)%nat → right_first mh j1 n = Some r →
  (j1 ≤ child j1 r < n)%nat.
Proof.
  unfold right_first, child. intros Hj Hr.
  case_decide; destruct r; try discriminate; lia.
Qed.

Lemma down_perm mh i n mh' : down mh i n = Some mh' → mh' ≡ₚ mh.
Proof.
  funelim (down mh i n); try congruence.
  - intros [= <-]. done.
  - intros [= <-]. done.
  - intros Hd. rewrite (H _ Hd). by eapply Swap_perm.
Qed.

Lemma down_is_Some mh i n : (n ≤ length mh)%nat → is_Some (down mh i n).
Proof.
  funelim (down mh i n); intros Hn; try (by eexists).
  - destruct (right_first_is_Some mh (2 * i + 1) n Hn) as [? ?]; congruence.
  - apply Less_None_inv in Heq.
    pose proof (child_bounds mh (2 * i + 1) n r ltac:(lia) Heq0). lia.
  - apply H. erewrite Swap_length by done. lia.
  - pose proof (child_bounds mh (2 * i + 1) n r ltac:(lia) Heq1).
    destruct (Swap_is_Some mh i (child (2 * i + 1) r)) as [? ?];
      [lia|lia|congruence].
Qed.

(** [down] leaves the positions from [n] on alone. *)
Lemma down_frame mh i n mh' k :
  down mh i n = Some mh' → (n ≤ k)%nat → mh' !! k = mh !! k.
Proof.
  funelim (down mh i n); intros Hd Hk; try congruence.
  pose proof (child_bounds mh (2 * i + 1) n r ltac:(lia) Heq1).
  rewrite (H _ _ Hd) by lia.
  eapply Swap_frame; [done|lia|lia].
Qed.

Lemma Push_spec mh x : ∃ mh', Push mh x = Some mh' ∧ mh' ≡ₚ x :: mh.
Proof.
  unfold Push, MessageHeap.Push, MessageHeap.Len.
  destruct (up_is_Some (mh ++ [x]) (length (mh ++ [x]) - 1)) as [mh' Hup].
  { rewrite length_app. simpl. lia. }
  exists mh'. split; [done|].
  rewrite (up_perm _ _ _ Hup). by rewrite Permutation_app_comm.
Qed.

(** [heap.Pop] returns the element at the front, and what is left is the
    rest of the heap in some order. *)
Lemma Pop_spec m rest :
  ∃ mh', Pop (m :: rest) = Some (m, mh') ∧ mh' ≡ₚ rest.
Proof.
  unfold Pop, MessageHeap.Len. simpl length.
  destruct (Swap_is_Some (m :: rest) 0 (length rest)) as [mh1 H1];
    [simpl; lia..|].
  rewrite H1. simpl.
  destruct (down_is_Some mh1 0 (length rest)) as [mh2 H2].
  { rewrite (Swap_length _ _ _ _ H1). simpl. lia. }
  rewrite H2. simpl.
  assert (Hlen : length mh2 = S (length rest)).
  { by rewrite (down_length _ _ _ _ H2), (Swap_length _ _ _ _ H1). }
  assert (Hlast : last mh2 = Some m).
  { rewrite last_lookup, Hlen. simpl.
    rewrite (down_frame _ _ _ _ _ H2) by lia.
    unfold MessageHeap.Swap in H1. simpl in H1.
    destruct ((m :: rest) !! length rest) as [b|] eqn:Hb; [|done].
    simpl in H1. injection H1 as <-.
    apply list_lookup_insert_eq. simpl. lia. }
  unfold MessageHeap.Pop. rewrite Hlast. simpl.
  eexists. split; [done|].
  apply last_Some in Hlast as [l' ->].
  rewrite length_app in *. simpl in *.
  rewrite take_app_length' by lia.
  apply down_perm in H2. apply Swap_perm in H1.
  rewrite H1 in H2. rewrite Permutation_app_comm in H2. simpl in H2.
  by apply Permutation_cons_inv in H2.
Qed.

Lemma Init_nil : Init [] = Some [].
Proof. reflexivity. Qed.

End HeapFacts.

(** ** Facts about the two loops of the release branch *)

Module QueueFacts.
Import HeapFacts.

Lemma drain_spec q p kept :
  ∃ kept', drain q p kept = Some ([], kept')
           ∧ kept' ≡ₚ kept ++ filter (λ r, Proc r ≠ p) q.
Proof.
  funelim (drain q p kept).
  - destruct q as [|m rest]; [|unfold MessageHeap.Len in *; simpl in *; lia].
    exists kept. split; [done|]. by rewrite filter_nil, app_nil_r.
  - destruct q as [|m rest]; [unfold MessageHeap.Len in *; simpl in *; lia|].
    destruct (Pop_spec m rest) as (mh' & Hp & Hperm).
    assert (req = m ∧ q' = mh') as [-> ->] by (split; congruence).
    destruct H as (kept' & Hd & Hk).
    exists kept'. split; [done|].
    rewrite Hk, Hperm, filter_cons.
    case_decide; [|done].
    by rewrite <- app_assoc.
  - destruct q as [|m rest]; [unfold MessageHeap.Len in *; simpl in *; lia|].
    destruct (Pop_spec m rest) as (mh' & Hp & Hperm). congruence.
Qed.

Lemma refill_spec kept q : ∃ q', refill kept q = Some q' ∧ q' ≡ₚ kept ++ q.
Proof.
  revert q. induction kept as [|req rest IH]; intros q; simpl.
  - by exists q.
  - destruct (Push_spec q req) as (q1 & -> & Hq1). simpl.
    destruct (IH q1) as (q' & -> & Hq').
    exists q'. split; [done|].
    rewrite Hq', Hq1. by rewrite Permutation_middle.
Qed.

Lemma purge_spec p s :
  ∃ q', purge p s = Ret tt (set_reqs q' s)
        ∧ q' ≡ₚ filter (λ r, Proc r ≠ p) (reqs s).
Proof.
  unfold purge.
  destruct (drain_spec (reqs s) p []) as (kept & -> & Hk).
  destruct (refill_spec kept []) as (q' & -> & Hq').
  exists q'. split; [done|].
  by rewrite Hq', app_nil_r, Hk.
Qed.

End QueueFacts.

(** ** Running the operations *)

Module Run.
Import HeapFacts QueueFacts.

Ltac unfold_m :=
  unfold mbind, M_bind, mret, M_ret, get, halt, Lock, Unlock, advance,
    broadcast, send, pushReq, popReq, setSeen, mergeTime.

Lemma unlock_lock s : lock s = false → set_lock false (set_lock true s) = s.
Proof. destruct s; simpl; intros ->; reflexivity. Qed.

Lemma allSeenFrom_spec self t p0 l :
  allSeenFrom self t p0 l = true ↔
  ∀ i v, l !! i = Some v → Z.of_nat (p0 + i) ≠ self → t ≤ v.
Proof.
  revert p0. induction l as [|v l IH]; intros p0; simpl.
  - split; [intros _ i v' Hi; by rewrite lookup_nil in Hi|done].
  - assert (Hrest : allSeenFrom self t (S p0) l = true ↔
      ∀ i v', l !! i = Some v' → Z.of_nat (p0 + S i) ≠ self → t ≤ v').
    { rewrite IH. split; intros H i v' Hi Hne; apply (H i v' Hi);
        by replace (S p0 + i)%nat with (p0 + S i)%nat in * by lia. }
    repeat case_decide.
    + split; [done|]. intros Hall.
      specialize (Hall 0%nat v eq_refl). rewrite Nat.add_0_r in Hall. lia.
    + rewrite Hrest. split.
      * intros Hall [|i] v' Hi Hne; simplify_eq/=; [lia|by eapply Hall].
      * intros Hall i v' Hi Hne. by apply (Hall (S i) v').
    + rewrite Hrest. split.
      * intros Hall [|i] v' Hi Hne; simplify_eq/=.
        -- rewrite Nat.add_0_r in Hne. done.
        -- by eapply Hall.
      * intros Hall i v' Hi Hne. by apply (Hall (S i) v').
Qed.

Lemma allProcessesSeen_spec s t :
  allProcessesSeen s t = true ↔
  ∀ p v, seen s !! p = Some v → Z.of_nat p ≠ proc s → t ≤ v.
Proof. unfold allProcessesSeen. by rewrite allSeenFrom_spec. Qed.

Lemma haveLock_run s : lock s = false → haveLock s = Ret (holds s) s.
Proof.
  intros Hl. unfold haveLock, holds. unfold_m. rewrite Hl. simpl.
  destruct (reqs s) as [|m rest]; simpl.
  - by rewrite unlock_lock.
  - case_decide as Hp.
    + rewrite bool_decide_true by done. simpl.
      destruct (allProcessesSeen _ _); simpl; by rewrite unlock_lock.
    + rewrite bool_decide_false by done. simpl. by rewrite unlock_lock.
Qed.

Lemma index_Some p n i :
  GoInt.index p n = Some i ↔ (0 ≤ p ∧ i = Z.to_nat p ∧ (i < n)%nat).
Proof.
  unfold GoInt.index. case_decide; split.
  - intros [= <-]. lia.
  - intros (? & -> & ?). done.
  - done.
  - intros (? & -> & ?). lia.
Qed.

(** The effect of [processMessage] on every field, for a message whose
    origin is a position of the two tables. *)
Lemma processMessage_run m s i :
  GoInt.index (Proc m) (length (seen s)) = Some i →
  (Type_ m = MessageRequest → length (chns s) = length (seen s)) →
  ∃ s', processMessage m s = Ret tt s'
    ∧ proc s' = proc s ∧ lock s' = lock s
    ∧ seen s' = <[i := Time m]> (seen s)
    ∧ time s' = (if decide (Type_ m = MessageRequest)
                 then GoInt.add (Z.max (time s) (Time m)) 1
                 else Z.max (time s) (Time m))
    ∧ chns s' = (if decide (Type_ m = MessageRequest)
                 then alter
                        (λ c, c ++ [mkMessage MessageAck (proc s) (time s')])
                        i (chns s)
                 else chns s)
    ∧ reqs s' ≡ₚ (if decide (Type_ m = MessageRequest) then m :: reqs s
                  else if decide (Type_ m = MessageRelease)
                       then filter (λ r, Proc r ≠ Proc m) (reqs s)
                       else reqs s).
Proof.
  intros Hi Hlen. unfold processMessage. unfold_m. rewrite Hi. simpl.
  assert (Hmax : ∀ t, (if decide (Time m > t) then Time m else t)
                       = Z.max t (Time m)).
  { intros t. case_decide; lia. }
  destruct (decide (Type_ m = MessageRequest)) as [Hreq|Hreq].
  - case_decide; simpl;
      (destruct (Push_spec (reqs s) m) as (q & -> & Hq); simpl;
       unfold sendAckMsg; unfold_m; simpl; rewrite (Hlen Hreq), Hi; simpl;
       eexists; split; [reflexivity|]; simpl; rewrite <- ?Hmax;
       repeat case_decide; try lia; done).
  - destruct (decide (Type_ m = MessageRelease)) as [Hrel|Hrel].
    + case_decide; simpl.
      * destruct (purge_spec (Proc m) (set_time (Time m)
            (set_seen (<[i:=Time m]> (seen s)) s))) as (q & -> & Hq).
        eexists; split; [reflexivity|]; simpl in *.
        rewrite <- Hmax. case_decide; try lia. done.
      * destruct (purge_spec (Proc m)
            (set_seen (<[i:=Time m]> (seen s)) s)) as (q & -> & Hq).
        eexists; split; [reflexivity|]; simpl in *.
        rewrite <- Hmax. case_decide; try lia. done.
    + case_decide; simpl; (eexists; split; [reflexivity|]; simpl;
        rewrite <- Hmax; case_decide; try lia; done).
Qed.

Lemma deliver_lookup self m cs p :
  deliver self m cs !! p
  = (λ c, if decide (Z.of_nat p ≠ self) then c ++ [m] else c) <$> cs !! p.
Proof. unfold deliver. by rewrite list_lookup_imap. Qed.

Lemma deliver_length self m cs : length (deliver self m cs) = length cs.
Proof. unfold deliver. by rewrite length_imap. Qed.

Lemma bind_run {A B} (m : M A) (f : A → M B) s :
  (m ≫= f) s
  = match m s with Ret a s' => f a s' | Stop h s' => Stop h s' end.
Proof. reflexivity. Qed.

(** [sendRequestMsg] on a state whose mutex is free. *)
Lemma sendRequestMsg_run s :
  lock s = false →
  let t' := GoInt.add (time s) 1 in
  let req := mkMessage MessageRequest (proc s) t' in
  ∃ q, q ≡ₚ req :: reqs s
    ∧ sendRequestMsg s
      = Ret tt (mkState t' (proc s) (seen s) (deliver (proc s) req (chns s))
                  q false).
Proof.
  intros Hl. simpl. unfold sendRequestMsg. unfold_m. rewrite Hl. simpl.
  destruct (Push_spec (reqs s)
    (mkMessage MessageRequest (proc s) (GoInt.add (time s) 1)))
    as (q & -> & Hq).
  simpl. by exists q.
Qed.

(** [sendReleaseMsg] on a state whose mutex is free: a fatal exit in the
    state as it is when the lock is not held, and otherwise the release. *)
Lemma sendReleaseMsg_run s :
  lock s = false →
  if holds s then
    let t' := GoInt.add (time s) 1 in
    let rel := mkMessage MessageRelease (proc s) t' in
    ∃ front rest q, reqs s = front :: rest ∧ Proc front = proc s ∧ q ≡ₚ rest
      ∧ sendReleaseMsg s
        = Ret tt (mkState t' (proc s) (seen s) (deliver (proc s) rel (chns s))
                    q false)
  else sendReleaseMsg s = Stop LogFatal s.
Proof.
  intros Hl. unfold sendReleaseMsg.
  rewrite bind_run, (haveLock_run s Hl).
  destruct (holds s) eqn:Hh; [|reflexivity].
  unfold holds in Hh. destruct (reqs s) as [|front rest] eqn:Hq; [done|].
  apply andb_true_iff in Hh as [Hp%bool_decide_eq_true _].
  destruct (Pop_spec front rest) as (q & Hpop & Hperm).
  simpl. exists front, rest, q. split; [done|]. split; [done|]. split; [done|].
  unfold_m. rewrite Hl. simpl. rewrite Hq, Hpop. simpl. done.
Qed.

Lemma Lock_blocked {A} (k : unit → M A) s :
  lock s = true → (Lock ≫= k) s = Stop Blocked s.
Proof. intros Hl. unfold_m. by rewrite Hl. Qed.

End Run.

(** ** Facts about machine integers and about lists of times *)

Module Arith.

Lemma add_no_overflow x :
  GoInt.min_int ≤ x < GoInt.max_int → GoInt.add x 1 = x + 1.
Proof.
  unfold GoInt.add, GoInt.wrap, GoInt.min_int, GoInt.max_int. intros Hx.
  rewrite Z.mod_small; lia.
Qed.

Lemma foldr_max_ge (t : Z) ts x : x ∈ t :: ts → x ≤ foldr Z.max t ts.
Proof.
  induction ts as [|a ts IH]; simpl.
  - intros ->%list_elem_of_singleton. lia.
  - intros [->|[->|Hx]%elem_of_cons]%elem_of_cons.
    + specialize (IH ltac:(left)). lia.
    + lia.
    + specialize (IH ltac:(by right)). lia.
Qed.

Lemma foldr_max_le (t : Z) ts b :
  (∀ x, x ∈ t :: ts → x ≤ b) → foldr Z.max t ts ≤ b.
Proof.
  induction ts as [|a ts IH]; simpl; intros Hb.
  - apply Hb. left.
  - apply Z.max_lub.
    + apply Hb. right. left.
    + apply IH. intros x [->|Hx]%elem_of_cons; apply Hb; [left|].
      right. by right.
Qed.

(** Along times that do not decrease, the last one is the highest. *)
Lemma last_is_highest (t : Z) ts :
  nonDecreasing (t :: ts) → default 0 (last (t :: ts)) = foldr Z.max t ts.
Proof.
  intros Hnd.
  destruct (last (t :: ts)) as [b|] eqn:Hlast; [|by apply last_None in Hlast].
  simpl. apply Z.le_antisymm.
  - apply foldr_max_ge. by eapply last_Some_elem_of.
  - apply foldr_max_le. intros x [i Hi]%list_elem_of_lookup.
    rewrite last_lookup in Hlast.
    apply (Hnd i (pred (length (t :: ts))) x b); [|done|done].
    apply lookup_lt_Some in Hi. lia.
Qed.

Lemma latest_is_highest p ms :
  nonDecreasing (timesFrom p ms) → latestFrom p ms = highestFrom p ms.
Proof.
  unfold latestFrom, highestFrom. destruct (timesFrom p ms) as [|t ts]; [done|].
  apply last_is_highest.
Qed.

End Arith.

(** ** Every outcome of the operations *)

Module Outcome.
Import HeapFacts QueueFacts Run.

Lemma sendRequestMsg_cases s :
  if lock s then sendRequestMsg s = Stop Blocked s
  else
    let t' := GoInt.add (time s) 1 in
    let req := mkMessage MessageRequest (proc s) t' in
    ∃ q, q ≡ₚ req :: reqs s
      ∧ sendRequestMsg s
        = Ret tt (mkState t' (proc s) (seen s) (deliver (proc s) req (chns s))
                    q false).
Proof.
  destruct (lock s) eqn:Hl.
  - unfold sendRequestMsg. by apply Lock_blocked.
  - by apply sendRequestMsg_run.
Qed.

Lemma sendReleaseMsg_cases s :
  if lock s then sendReleaseMsg s = Stop Blocked s
  else if holds s then
    let t' := GoInt.add (time s) 1 in
    let rel := mkMessage MessageRelease (proc s) t' in
    ∃ front rest q, reqs s = front :: rest ∧ Proc front = proc s ∧ q ≡ₚ rest
      ∧ sendReleaseMsg s
        = Ret tt (mkState t' (proc s) (seen s) (deliver (proc s) rel (chns s))
                    q false)
  else sendReleaseMsg s = Stop LogFatal s.
Proof.
  destruct (lock s) eqn:Hl.
  - unfold sendReleaseMsg. rewrite bind_run.
    unfold haveLock. by rewrite Lock_blocked.
  - by apply sendReleaseMsg_run.
Qed.

Lemma sendAckMsg_cases target s :
  let t' := GoInt.add (time s) 1 in
  let ack := mkMessage MessageAck (proc s) t' in
  match GoInt.index target (length (chns s)) with
  | Some i =>
      sendAckMsg target s
      = Ret tt (set_chns (alter (λ c, c ++ [ack]) i (chns s)) (set_time t' s))
  | None => sendAckMsg target s = Stop RuntimePanic (set_time t' s)
  end.
Proof.
  simpl. unfold sendAckMsg. unfold_m. simpl.
  by destruct (GoInt.index target (length (chns s))).
Qed.

Lemma processMessage_cases m s :
  match GoInt.index (Proc m) (length (seen s)) with
  | None => processMessage m s = Stop RuntimePanic s
  | Some i =>
      let t := Z.max (time s) (Time m) in
      let sn := <[i := Time m]> (seen s) in
      if decide (Type_ m = MessageRequest) then
        ∃ q, q ≡ₚ m :: reqs s
          ∧ processMessage m s
            = sendAckMsg (Proc m) (mkState t (proc s) sn (chns s) q (lock s))
      else if decide (Type_ m = MessageRelease) then
        ∃ q, q ≡ₚ filter (λ r, Proc r ≠ Proc m) (reqs s)
          ∧ processMessage m s
            = Ret tt (mkState t (proc s) sn (chns s) q (lock s))
      else
        processMessage m s
        = Ret tt (mkState t (proc s) sn (chns s) (reqs s) (lock s))
  end.
Proof.
  unfold processMessage. rewrite bind_run. unfold setSeen.
  destruct (GoInt.index (Proc m) (length (seen s))) as [i|]; [|reflexivity].
  rewrite bind_run. unfold mergeTime. simpl.
  assert (Hmerge : (if decide (Time m > time s)
      then Ret tt (set_time (Time m) (set_seen (<[i:=Time m]> (seen s)) s))
      else Ret tt (set_seen (<[i:=Time m]> (seen s)) s))
    = Ret tt (mkState (Z.max (time s) (Time m)) (proc s)
                (<[i:=Time m]> (seen s)) (chns s) (reqs s) (lock s))).
  { unfold set_time, set_seen. simpl.
    case_decide; f_equal; f_equal; lia. }
  rewrite Hmerge. clear Hmerge.
  destruct (decide (Type_ m = MessageRequest)) as [Hreq|Hreq].
  - rewrite bind_run. unfold pushReq. simpl.
    destruct (Push_spec (reqs s) m) as (q & -> & Hq). by exists q.
  - destruct (decide (Type_ m = MessageRelease)) as [Hrel|Hrel]; [|done].
    match goal with |- context [purge ?p ?s0] =>
      destruct (purge_spec p s0) as (q & -> & Hq) end.
    by exists q.
Qed.

(** The clock in the state an operation ends in. *)
Lemma sendRequestMsg_time s :
  time (final (sendRequestMsg s)) = time s
  ∨ time (final (sendRequestMsg s)) = GoInt.add (time s) 1.
Proof.
  pose proof (sendRequestMsg_cases s) as H. destruct (lock s).
  - rewrite H. by left.
  - destruct H as (q & _ & ->). by right.
Qed.

Lemma sendReleaseMsg_time s :
  time (final (sendReleaseMsg s)) = time s
  ∨ time (final (sendReleaseMsg s)) = GoInt.add (time s) 1.
Proof.
  pose proof (sendReleaseMsg_cases s) as H. destruct (lock s).
  - rewrite H. by left.
  - destruct (holds s).
    + destruct H as (front & rest & q & _ & _ & _ & ->). by right.
    + rewrite H. by left.
Qed.

Lemma sendAckMsg_time target s :
  time (final (sendAckMsg target s)) = GoInt.add (time s) 1.
Proof.
  pose proof (sendAckMsg_cases target s) as H. simpl in H.
  destruct (GoInt.index target (length (chns s))); by rewrite H.
Qed.

Lemma processMessage_time m s :
  time (final (processMessage m s)) = time s
  ∨ time (final (processMessage m s)) = Z.max (time s) (Time m)
  ∨ time (final (processMessage m s))
    = GoInt.add (Z.max (time s) (Time m)) 1.
Proof.
  pose proof (processMessage_cases m s) as H.
  destruct (GoInt.index (Proc m) (length (seen s))) as [i|].
  - simpl in H. repeat case_decide.
    + destruct H as (q & _ & ->). right. right. by rewrite sendAckMsg_time.
    + destruct H as (q & _ & ->). right. by left.
    + rewrite H. right. by left.
  - rewrite H. by left.
Qed.

End Outcome.

(** ** The comparison and the order of the queue *)

Module Order.

(** What [Less] computes on two messages. *)
Lemma less_spec a b :
  MessageHeap.less a b = true ↔ Time a < Time b ∨ Proc a < Proc b.
Proof.
  unfold MessageHeap.less.
  destruct (Z.ltb_spec (Time a) (Time b)), (Z.ltb_spec (Proc a) (Proc b));
    split; intros; try done; lia.
Qed.

(** C1 (comparison on Message): [Less] is not the strict lexicographic order
    on (Time, Proc).  On the heap holding the request of peer 0 at time 5 and
    the request of peer 1 at time 3, [Less(0, 1)] and [Less(1, 0)] both report
    [true], although (5, 0) is not lexicographically below (3, 1): when the
    first time is the larger one the function still falls through to the
    comparison of [Proc]. *)
Theorem C1_Less_not_lexicographic :
  MessageHeap.Less [req0; req1] 0 1 = Some true
  ∧ MessageHeap.Less [req0; req1] 1 0 = Some true
  ∧ ¬ (Time req0 < Time req1
       ∨ (Time req0 = Time req1 ∧ Proc req0 < Proc req1)).
Proof.
  split; [reflexivity|]. split; [reflexivity|].
  unfold req0, req1. simpl. lia.
Qed.

(** C2 (three-peer scenario): pushing the requests (3, peer 1), (3, peer 2),
    (5, peer 0) in this order and popping three times returns the request of
    peer 0 first, then peer 1, then peer 2, not peer 1, peer 2, peer 0. *)
Theorem C2_scenario_pops_peer0_first :
  ∃ q, refill [req1; req2; req0] [] = Some q
       ∧ popN 3 q = Some [req0; req1; req2].
Proof. eexists. split; reflexivity. Qed.

(** The same at a peer: peer 0 of two, having queued the request of peer 1
    at time 2, sends its own request at time 4, and [heap.Push] moves it to
    the front of the queue, before the earlier request of peer 1. *)
Example later_request_at_front :
  ∃ s', (processMessage (mkMessage MessageRequest 1 2);; sendRequestMsg)
          (initState 0 [[]; []]) = Ret tt s'
    ∧ reqs s' = [mkMessage MessageRequest 0 4; mkMessage MessageRequest 1 2].
Proof. eexists. split; [vm_compute; reflexivity|reflexivity]. Qed.

End Order.

(** ** The lock-held predicate *)

Module HaveLock.
Import Run.

(** C3 (HaveLock): called with the mutex free, [haveLock] returns in the
    state it was called in, with no field changed.  It returns [false] when
    the queue is empty and when the front entry is of another process; when
    the front entry is the caller's own, it returns [true] exactly when every
    other process [p] has [seen[p]] at least the time of that entry. *)
Theorem C3_haveLock (s : LamportLockState) :
  lock s = false →
  ∃ b, haveLock s = Ret b s
    ∧ (reqs s = [] → b = false)
    ∧ (∀ m rest, reqs s = m :: rest → Proc m ≠ proc s → b = false)
    ∧ (∀ m rest, reqs s = m :: rest → Proc m = proc s →
         (b = true ↔
          ∀ (p : nat) (v : Z),
            seen s !! p = Some v → Z.of_nat p ≠ proc s → Time m ≤ v)).
Proof.
  intros Hl. exists (holds s). split; [by apply haveLock_run|].
  unfold holds. split; [by intros ->|]. split.
  - intros m rest -> Hne. by rewrite bool_decide_false.
  - intros m rest -> Heq. rewrite bool_decide_true by done. simpl.
    by rewrite allProcessesSeen_spec.
Qed.

Lemma C3_haveLock_witness :
  lock holding = false
  ∧ ∃ b, haveLock holding = Ret b holding
    ∧ (reqs holding = [] → b = false)
    ∧ (∀ m rest, reqs holding = m :: rest → Proc m ≠ proc holding → b = false)
    ∧ (∀ m rest, reqs holding = m :: rest → Proc m = proc holding →
         (b = true ↔
          ∀ (p : nat) (v : Z),
            seen holding !! p = Some v → Z.of_nat p ≠ proc holding →
            Time m ≤ v)).
Proof.
  split; [reflexivity | apply (C3_haveLock holding); reflexivity].
Defined.

End HaveLock.

(** ** Receiving messages *)

Module Receipt.
Import Run Arith.

Lemma timesFrom_cons p m ms :
  timesFrom p (m :: ms)
  = if decide (Proc m = Z.of_nat p) then Time m :: timesFrom p ms
    else timesFrom p ms.
Proof. unfold timesFrom. rewrite filter_cons. by case_decide. Qed.

(** After a list of messages of known origin, [seen] holds for each process
    the time of its last message, and what it held before for a process that
    sent none. *)
Lemma processAll_run ms : ∀ s,
  length (chns s) = length (seen s) →
  Forall (λ m, 0 ≤ Proc m < Z.of_nat (length (seen s))) ms →
  ∃ s', processAll ms s = Ret tt s'
    ∧ length (seen s') = length (seen s)
    ∧ ∀ p, (p < length (seen s))%nat →
        seen s' !! p = match last (timesFrom p ms) with
                       | Some t => Some t
                       | None => seen s !! p
                       end.
Proof.
  induction ms as [|m ms IH]; intros s Hlen Hms.
  - exists s. by split.
  - apply Forall_cons in Hms as [Hm Hms].
    assert (Hi : GoInt.index (Proc m) (length (seen s))
                 = Some (Z.to_nat (Proc m))).
    { apply index_Some. split; [lia|]. split; [done|lia]. }
    destruct (processMessage_run m s _ Hi (λ _, Hlen))
      as (s1 & Hrun & _ & _ & Hseen & _ & Hchns & _).
    assert (Hlen1 : length (seen s1) = length (seen s)).
    { by rewrite Hseen, length_insert. }
    destruct (IH s1) as (s' & Hrun' & Hlen' & Hlook).
    { rewrite Hlen1, Hchns. case_decide; [|done]. by rewrite length_alter. }
    { by rewrite Hlen1. }
    exists s'. split; [|split].
    + simpl. by rewrite bind_run, Hrun.
    + congruence.
    + intros p Hp. rewrite Hlook by lia. rewrite timesFrom_cons.
      destruct (decide (Proc m = Z.of_nat p)) as [Hpm|Hpm].
      * rewrite last_cons. destruct (last (timesFrom p ms)); [done|].
        rewrite Hseen, Hpm, Nat2Z.id. apply list_lookup_insert_eq. lia.
      * destruct (last (timesFrom p ms)); [done|].
        rewrite Hseen. apply list_lookup_insert_ne. lia.
Qed.

(** C4 (clock on receipt): for a message [m] whose origin is a process of
    the system, [processMessage] returns, with [seen[m.Proc]] set to
    [m.Time].  For a message that is no Request the clock is
    [max(clock, m.Time)] and nothing is sent.  For a Request the clock is that
    maximum incremented once ([+ 1] on Go's [int], which is the maximum plus
    one below the largest [int]), and the Ack appended to the inbox of
    [m.Proc] carries the incremented clock. *)
Theorem C4_processMessage_clock (m : Message) (s : LamportLockState)
    (i : nat) :
  GoInt.index (Proc m) (length (seen s)) = Some i →
  length (chns s) = length (seen s) →
  ∃ s', processMessage m s = Ret tt s'
    ∧ seen s' !! i = Some (Time m)
    ∧ (Type_ m ≠ MessageRequest →
         time s' = Z.max (time s) (Time m) ∧ chns s' = chns s)
    ∧ (Type_ m = MessageRequest →
         time s' = GoInt.add (Z.max (time s) (Time m)) 1
         ∧ (GoInt.min_int ≤ Z.max (time s) (Time m) < GoInt.max_int →
            time s' = Z.max (time s) (Time m) + 1)
         ∧ ∃ c, chns s !! i = Some c
             ∧ chns s' = <[i := c ++ [mkMessage MessageAck (proc s) (time s')]]>
                           (chns s)).
Proof.
  intros Hi Hlen.
  destruct (processMessage_run m s i Hi (λ _, Hlen))
    as (s' & Hrun & _ & _ & Hseen & Htime & Hchns & _).
  apply index_Some in Hi as (_ & _ & Hlt).
  exists s'. split; [done|]. split; [|split].
  - rewrite Hseen. by apply list_lookup_insert_eq.
  - intros Hne. by rewrite !decide_False in * by done.
  - intros He. rewrite !decide_True in * by done.
    split; [done|]. split.
    + intros Hr. rewrite Htime. by apply add_no_overflow.
    + destruct (lookup_lt_is_Some_2 (chns s) i) as [c Hc]; [lia|].
      exists c. split; [done|]. rewrite Hchns.
      apply list_eq. intros k. rewrite list_lookup_alter.
      destruct (decide (i = k)) as [->|Hk].
      * rewrite list_lookup_insert_eq by lia. by rewrite Hc.
      * by rewrite list_lookup_insert_ne.
Qed.

Lemma C4_processMessage_clock_witness :
  GoInt.index (Proc (mkMessage MessageRequest 1 7))
    (length (seen (initState 0 [[]; []]))) = Some 1%nat
  ∧ length (chns (initState 0 [[]; []]))
    = length (seen (initState 0 [[]; []]))
  ∧ ∃ s', processMessage (mkMessage MessageRequest 1 7) (initState 0 [[]; []])
          = Ret tt s'
      ∧ time s' = 8.
Proof.
  split; [reflexivity|]. split; [reflexivity|].
  destruct (C4_processMessage_clock (mkMessage MessageRequest 1 7)
              (initState 0 [[]; []]) 1%nat eq_refl eq_refl)
    as (s' & Hrun & _ & _ & Hreq).
  exists s'. split; [exact Hrun|].
  destruct (Hreq eq_refl) as (_ & Hplus & _).
  apply Hplus. unfold GoInt.min_int, GoInt.max_int. simpl. lia.
Defined.

(** C5 (seen-time vector), as the code has it: after the messages [ms], all
    from processes of the system, have been processed from the initial state,
    [seen[p]] is the time of the last message received from [p], and 0 when
    none was received; it is the highest time received from [p] when the
    times of the messages from [p] do not decrease. *)
Theorem C5_seen_is_latest (self : Z) (chns : list (list Message))
    (ms : list Message) :
  Forall (λ m, 0 ≤ Proc m < Z.of_nat (length chns)) ms →
  ∃ s', processAll ms (initState self chns) = Ret tt s'
    ∧ ∀ p, (p < length chns)%nat →
        seen s' !! p = Some (latestFrom p ms)
        ∧ (nonDecreasing (timesFrom p ms) →
           seen s' !! p = Some (highestFrom p ms)).
Proof.
  intros Hms.
  destruct (processAll_run ms (initState self chns))
    as (s' & Hrun & _ & Hlook).
  { simpl. by rewrite length_replicate. }
  { simpl. by rewrite length_replicate. }
  exists s'. split; [done|]. intros p Hp.
  assert (Hl : seen s' !! p = Some (latestFrom p ms)).
  { rewrite Hlook by (simpl; by rewrite length_replicate).
    unfold latestFrom. destruct (last (timesFrom p ms)); [done|].
    simpl. by apply lookup_replicate_2. }
  split; [done|]. intros Hnd. by rewrite Hl, latest_is_highest.
Qed.

Lemma C5_seen_is_latest_witness :
  Forall (λ m, 0 ≤ Proc m < Z.of_nat (length [[]; []; [] : list Message]))
    [mkMessage MessageAck 1 3; mkMessage MessageRequest 2 4;
     mkMessage MessageRelease 2 6]
  ∧ ∃ s', processAll
            [mkMessage MessageAck 1 3; mkMessage MessageRequest 2 4;
             mkMessage MessageRelease 2 6]
            (initState 0 [[]; []; []]) = Ret tt s'
    ∧ ∀ p, (p < length [[]; []; [] : list Message])%nat →
        seen s' !! p
        = Some (latestFrom p [mkMessage MessageAck 1 3;
                              mkMessage MessageRequest 2 4;
                              mkMessage MessageRelease 2 6])
        ∧ (nonDecreasing (timesFrom p [mkMessage MessageAck 1 3;
                                       mkMessage MessageRequest 2 4;
                                       mkMessage MessageRelease 2 6]) →
           seen s' !! p
           = Some (highestFrom p [mkMessage MessageAck 1 3;
                                  mkMessage MessageRequest 2 4;
                                  mkMessage MessageRelease 2 6])).
Proof.
  split.
  - repeat constructor; simpl; lia.
  - apply (C5_seen_is_latest 0 [[]; []; []]).
    repeat constructor; simpl; lia.
Defined.

(** C5, as the claim has it, fails: peer 0 of two receives from peer 1 an
    Ack at time 5 and then an Ack at time 3; [seen[1]] is then 3, while the
    highest time received from peer 1 is 5. *)
Lemma C5_seen_not_highest :
  ∃ s', processAll [mkMessage MessageAck 1 5; mkMessage MessageAck 1 3]
          (initState 0 [[]; []]) = Ret tt s'
    ∧ seen s' !! 1%nat = Some 3
    ∧ highestFrom 1 [mkMessage MessageAck 1 5; mkMessage MessageAck 1 3] = 5.
Proof. eexists. repeat split; reflexivity. Qed.

(** C6 (release): on a Release from a process of the system,
    [processMessage] leaves in the queue, as a multiset, exactly the entries
    it held whose [Proc] is not the releasing process. *)
Theorem C6_release_purges (m : Message) (s : LamportLockState) (i : nat) :
  Type_ m = MessageRelease →
  GoInt.index (Proc m) (length (seen s)) = Some i →
  ∃ s', processMessage m s = Ret tt s'
    ∧ reqs s' ≡ₚ filter (λ r, Proc r ≠ Proc m) (reqs s).
Proof.
  intros Hrel Hi.
  destruct (processMessage_run m s i Hi)
    as (s' & Hrun & _ & _ & _ & _ & _ & Hq).
  { intros He. rewrite He in Hrel. discriminate Hrel. }
  exists s'. split; [done|].
  rewrite decide_False in Hq by (rewrite Hrel; discriminate).
  by rewrite decide_True in Hq.
Qed.

Lemma C6_release_purges_witness :
  Type_ (mkMessage MessageRelease 1 8) = MessageRelease
  ∧ GoInt.index (Proc (mkMessage MessageRelease 1 8))
      (length (seen threeQueued)) = Some 1%nat
  ∧ ∃ s', processMessage (mkMessage MessageRelease 1 8) threeQueued
          = Ret tt s'
      ∧ reqs s' ≡ₚ filter (λ r, Proc r ≠ Proc (mkMessage MessageRelease 1 8))
                     (reqs threeQueued).
Proof.
  split; [reflexivity|]. split; [reflexivity|].
  apply (C6_release_purges (mkMessage MessageRelease 1 8) threeQueued 1);
    reflexivity.
Defined.

End Receipt.

(** ** Release *)

Module Release.
Import Run Arith.

(** C7 (Release): called with the mutex free, [sendReleaseMsg] first
    evaluates [haveLock], which changes nothing.  When that is [false] the
    call ends in [log.Fatal] with the state as it was: nothing broadcast, the
    clock not advanced, the queue not popped.  When it is [true] the call
    returns: the clock is incremented ([+ 1] on Go's [int]), the inbox of
    every other process has received a Release of the caller at the
    incremented clock and the caller's own inbox nothing, and the front entry
    of the queue is gone while the other entries remain. *)
Theorem C7_release (s : LamportLockState) :
  lock s = false →
  ∃ b, haveLock s = Ret b s
    ∧ (b = false → sendReleaseMsg s = Stop LogFatal s)
    ∧ (b = true →
       ∃ front rest s',
         reqs s = front :: rest
         ∧ sendReleaseMsg s = Ret tt s'
         ∧ time s' = GoInt.add (time s) 1
         ∧ (GoInt.min_int ≤ time s < GoInt.max_int → time s' = time s + 1)
         ∧ length (chns s') = length (chns s)
         ∧ (∀ (p : nat) c, chns s !! p = Some c →
              chns s' !! p
              = Some (if decide (Z.of_nat p ≠ proc s)
                      then c ++ [mkMessage MessageRelease (proc s) (time s')]
                      else c))
         ∧ reqs s' ≡ₚ rest
         ∧ seen s' = seen s ∧ proc s' = proc s ∧ lock s' = false).
Proof.
  intros Hl. exists (holds s). split; [by apply haveLock_run|].
  pose proof (sendReleaseMsg_run s Hl) as H.
  destruct (holds s); (split; [done|]); [|done].
  intros _. destruct H as (front & rest & q & Hq & _ & Hperm & ->).
  exists front, rest. eexists. split; [done|]. split; [reflexivity|]. simpl.
  split; [done|]. split; [by apply add_no_overflow|].
  split; [by apply deliver_length|].
  split; [|done].
  intros p c Hc. by rewrite deliver_lookup, Hc.
Qed.

Lemma C7_release_witness :
  lock holding = false
  ∧ ∃ s', sendReleaseMsg holding = Ret tt s' ∧ time s' = 7 ∧ reqs s' ≡ₚ [].
Proof.
  split; [reflexivity|].
  destruct (C7_release holding eq_refl) as (b & Hb & _ & Htrue).
  assert (b = true) as Hbt.
  { change (haveLock holding) with (Ret (A:=bool) true holding) in Hb.
    by injection Hb. }
  destruct (Htrue Hbt)
    as (front & rest & s' & Hq & Hrun & _ & Ht & _ & _ & Hperm & _).
  exists s'. split; [exact Hrun|]. split.
  - apply Ht. unfold GoInt.min_int, GoInt.max_int. simpl. lia.
  - injection Hq as _ <-. exact Hperm.
Defined.

(** A release without a request: the queue is empty, and the call exits. *)
Example release_without_request :
  sendReleaseMsg (initState 0 [[]; []]) = Stop LogFatal (initState 0 [[]; []]).
Proof. reflexivity. Qed.

End Release.

(** ** The clock *)

Module Clock.
Import Run Arith Outcome.

(** C8, as the claim has it, fails at the largest [int]: a peer that has
    processed an Ack at time [2^63 - 1] has its clock there, and its next
    [sendRequestMsg] returns with the clock at [- 2^63]. *)
Lemma C8_clock_wraps :
  ∃ s1 s2,
    processMessage (mkMessage MessageAck 1 GoInt.max_int)
      (initState 0 [[]; []]) = Ret tt s1
    ∧ sendRequestMsg s1 = Ret tt s2
    ∧ time s1 = GoInt.max_int
    ∧ time s2 = GoInt.min_int
    ∧ time s2 < time s1.
Proof.
  do 2 eexists. split; [vm_compute; reflexivity|].
  split; [vm_compute; reflexivity|]. by repeat split.
Qed.

(** C8 (clock monotonicity), as the code has it: while the clock is below
    the largest [int], and the time of a processed message too, each of
    [sendRequestMsg], [sendReleaseMsg], [sendAckMsg] and [processMessage]
    ends, however it ends, with the clock at least what it was; and
    [processMessage], for a message whose origin is a process of the system,
    returns with the clock at least the time of the message. *)
Theorem C8_clock_monotone (s : LamportLockState) :
  GoInt.min_int ≤ time s < GoInt.max_int →
  time s ≤ time (final (sendRequestMsg s))
  ∧ time s ≤ time (final (sendReleaseMsg s))
  ∧ (∀ target, time s ≤ time (final (sendAckMsg target s)))
  ∧ (∀ m, Time m < GoInt.max_int →
       time s ≤ time (final (processMessage m s))
       ∧ (∀ i, GoInt.index (Proc m) (length (seen s)) = Some i →
               length (chns s) = length (seen s) →
               ∃ s', processMessage m s = Ret tt s'
                 ∧ time s ≤ time s' ∧ Time m ≤ time s')).
Proof.
  intros Hr. pose proof (add_no_overflow (time s) Hr) as Hadd.
  split; [|split; [|split]].
  - destruct (sendRequestMsg_time s) as [->| ->]; lia.
  - destruct (sendReleaseMsg_time s) as [->| ->]; lia.
  - intros target. rewrite sendAckMsg_time. lia.
  - intros m Hm.
    assert (Hmax : GoInt.add (Z.max (time s) (Time m)) 1
                   = Z.max (time s) (Time m) + 1).
    { apply add_no_overflow. lia. }
    split.
    + destruct (processMessage_time m s) as [->|[->| ->]]; lia.
    + intros i Hi Hlen.
      destruct (processMessage_run m s i Hi (λ _, Hlen))
        as (s' & Hrun & _ & _ & _ & Ht & _).
      exists s'. split; [done|]. rewrite Ht. case_decide; lia.
Qed.

Lemma C8_clock_monotone_witness :
  GoInt.min_int ≤ time (initState 0 [[]; []]) < GoInt.max_int
  ∧ time (initState 0 [[]; []])
    ≤ time (final (sendRequestMsg (initState 0 [[]; []]))).
Proof.
  assert (Hr : GoInt.min_int ≤ time (initState 0 [[]; []]) < GoInt.max_int).
  { unfold GoInt.min_int, GoInt.max_int. simpl. lia. }
  split; [exact Hr|].
  exact (proj1 (C8_clock_monotone (initState 0 [[]; []]) Hr)).
Defined.

End Clock.

(** ** Construction *)

Module Construction.
Import Run.

(** C10, as the claim has it, fails: a peer that has processed a Request of
    peer 1 at time 2 before its own first call of [sendRequestMsg] has the
    clock at 3 after the Ack, and its first Request carries time 4. *)
Lemma C10_first_request_after_receipt :
  ∃ s', (processMessage (mkMessage MessageRequest 1 2);; sendRequestMsg)
          (initState 0 [[]; []]) = Ret tt s'
    ∧ chns s' !! 1%nat
      = Some [mkMessage MessageAck 0 3; mkMessage MessageRequest 0 4].
Proof. eexists. split; [vm_compute; reflexivity|reflexivity]. Qed.

(** C10 (construction), as the code has it: [initState] sets the clock to 1,
    [seen] to 0 for every process and the queue empty, and [heap.Init] leaves
    the empty queue empty; a Request sent from that state, before any message
    has been processed, carries time 2: it is the only entry of the queue
    and is appended to the inbox of every other process. *)
Theorem C10_initState (p : Z) (chns0 : list (list Message)) :
  time (initState p chns0) = 1
  ∧ seen (initState p chns0) = replicate (length chns0) 0
  ∧ reqs (initState p chns0) = []
  ∧ heap.Init [] = Some []
  ∧ ∃ s', sendRequestMsg (initState p chns0) = Ret tt s'
      ∧ time s' = 2
      ∧ reqs s' = [mkMessage MessageRequest p 2]
      ∧ ∀ (k : nat) c, chns0 !! k = Some c →
          chns s' !! k
          = Some (if decide (Z.of_nat k ≠ p)
                  then c ++ [mkMessage MessageRequest p 2] else c).
Proof.
  split; [done|]. split; [done|]. split; [done|]. split; [done|].
  destruct (sendRequestMsg_run (initState p chns0) eq_refl) as (q & Hq & Hrun).
  simpl in Hq, Hrun. apply Permutation_singleton_r in Hq as ->.
  eexists. split; [exact Hrun|]. simpl.
  split; [done|]. split; [done|].
  intros k c Hc. by rewrite deliver_lookup, Hc.
Qed.

End Construction.

(** ** The queue invariant *)

Module Queue.
Import Run Outcome.













End Queue.

(** ** The slice behind the queue (message.go) *)

Module Slice.
Import HeapFacts.

(** X1 ([MessageHeap.Push], [MessageHeap.Pop]): [Pop] undoes [Push].  It
    returns [x] and leaves [mh] exactly when the slice is [mh] with [x]
    appended, and it panics exactly on the empty slice. *)
Theorem X1_Pop_inverts_Push (mh mh' : list Message) (x : Message) :
  (MessageHeap.Pop mh = Some (x, mh') ↔ mh = MessageHeap.Push mh' x)
  ∧ (MessageHeap.Pop mh = None ↔ mh = []).
Proof.
  unfold MessageHeap.Pop, MessageHeap.Push. split.
  - split.
    + intros H. destruct (last mh) as [y|] eqn:Hl; [|done].
      simpl in H. injection H as -> <-.
      apply last_Some in Hl as [l' ->].
      rewrite length_app. simpl.
      by rewrite take_app_length' by lia.
    + intros ->. rewrite last_snoc. simpl. rewrite length_app. simpl.
      by rewrite take_app_length' by lia.
  - rewrite <- last_None. destruct (last mh); simpl; split; done.
Qed.

(** X2 ([MessageHeap.Swap]): [Swap] panics exactly when one of the two
    positions is outside the slice.  Otherwise the two positions hold each
    other's element, every other position holds what it held, the length is
    the same and a second [Swap] of the same positions gives the slice
    back. *)
Theorem X2_Swap_exchanges (mh : list Message) (i j : nat) :
  (MessageHeap.Swap mh i j = None ↔ (length mh ≤ i ∨ length mh ≤ j)%nat)
  ∧ ∀ mh', MessageHeap.Swap mh i j = Some mh' →
      length mh' = length mh
      ∧ mh' !! i = mh !! j
      ∧ mh' !! j = mh !! i
      ∧ (∀ k, k ≠ i → k ≠ j → mh' !! k = mh !! k)
      ∧ MessageHeap.Swap mh' i j = Some mh.
Proof.
  split.
  - split.
    + intros H. destruct (decide (i < length mh)%nat); [|lia].
      destruct (decide (j < length mh)%nat); [|lia].
      destruct (Swap_is_Some mh i j) as [? ?]; congruence.
    + unfold MessageHeap.Swap.
      intros [H|H]; apply lookup_ge_None_2 in H; rewrite H; [done|].
      by destruct (mh !! i).
  - intros mh' H.
    assert (Hlen : length mh' = length mh) by by eapply heap.Swap_length.
    unfold MessageHeap.Swap in *.
    destruct (mh !! i) as [a|] eqn:Ha; [|done].
    destruct (mh !! j) as [b|] eqn:Hb; [|done].
    simpl in H. injection H as <-.
    pose proof (lookup_lt_Some _ _ _ Ha) as Hi.
    pose proof (lookup_lt_Some _ _ _ Hb) as Hj.
    assert (Hati : <[j:=a]> (<[i:=b]> mh) !! i = Some b).
    { destruct (decide (i = j)) as [->|Hne].
      - rewrite list_lookup_insert_eq by (by rewrite length_insert). congruence.
      - rewrite list_lookup_insert_ne by done.
        by rewrite list_lookup_insert_eq. }
    assert (Hatj : <[j:=a]> (<[i:=b]> mh) !! j = Some a).
    { by rewrite list_lookup_insert_eq by (by rewrite length_insert). }
    split; [done|]. split; [done|]. split; [done|]. split.
    + intros k Hki Hkj. by rewrite !list_lookup_insert_ne.
    + rewrite Hati, Hatj. simpl. f_equal.
      apply list_eq. intros k.
      destruct (decide (k = j)) as [->|Hkj].
      { rewrite list_lookup_insert_eq by (by rewrite !length_insert). done. }
      rewrite list_lookup_insert_ne by done.
      destruct (decide (k = i)) as [->|Hki].
      { rewrite list_lookup_insert_eq by (by rewrite !length_insert). done. }
      by rewrite !list_lookup_insert_ne.
Qed.

(** X3 ([MessageHeap.Less]): the comparison reports every pair that is in
    lexicographic (Time, Proc) order and never a message before itself; a
    pair it reports that is not in that order has the later time and the
    smaller process. *)
Theorem X3_less_and_lexicographic (a b : Message) :
  (lexBefore a b → MessageHeap.less a b = true)
  ∧ (MessageHeap.less a b = true →
     lexBefore a b ∨ (Time b < Time a ∧ Proc a < Proc b))
  ∧ MessageHeap.less a a = false.
Proof.
  unfold lexBefore, MessageHeap.less.
  destruct (Z.ltb_spec (Time a) (Time b)), (Z.ltb_spec (Proc a) (Proc b)),
    (Z.ltb_spec (Time a) (Time a)), (Z.ltb_spec (Proc a) (Proc a));
    repeat split; intros; try done; lia.
Qed.

End Slice.

(** ** What the operations change and what they leave *)

Module Effects.
Import HeapFacts QueueFacts Run Arith Outcome.

(** X4 ([sendRequestMsg]): called with the mutex free, it returns with the
    clock incremented ([+ 1] on Go's [int]); the Request of the caller at the
    new clock is appended to the inbox of every other process and joins the
    queue, which keeps all its entries; the caller's own inbox, [seen] and
    [proc] are as before and the mutex is free again. *)
Theorem X4_sendRequestMsg_effect (s : LamportLockState) :
  lock s = false →
  ∃ s', sendRequestMsg s = Ret tt s'
    ∧ time s' = GoInt.add (time s) 1
    ∧ reqs s' ≡ₚ mkMessage MessageRequest (proc s) (time s') :: reqs s
    ∧ length (chns s') = length (chns s)
    ∧ (∀ (p : nat) c, chns s !! p = Some c →
         chns s' !! p
         = Some (if decide (Z.of_nat p ≠ proc s)
                 then c ++ [mkMessage MessageRequest (proc s) (time s')]
                 else c))
    ∧ seen s' = seen s ∧ proc s' = proc s ∧ lock s' = false.
Proof.
  intros Hl. destruct (sendRequestMsg_run s Hl) as (q & Hq & ->).
  eexists. split; [reflexivity|]. simpl.
  split; [done|]. split; [done|]. split; [by apply deliver_length|].
  split; [|done]. intros p c Hc. by rewrite deliver_lookup, Hc.
Qed.

Lemma X4_sendRequestMsg_effect_witness :
  lock threeQueued = false
  ∧ ∃ s', sendRequestMsg threeQueued = Ret tt s'
    ∧ time s' = GoInt.add (time threeQueued) 1
    ∧ reqs s'
      ≡ₚ mkMessage MessageRequest (proc threeQueued) (time s')
         :: reqs threeQueued
    ∧ length (chns s') = length (chns threeQueued)
    ∧ (∀ (p : nat) c, chns threeQueued !! p = Some c →
         chns s' !! p
         = Some (if decide (Z.of_nat p ≠ proc threeQueued)
                 then c ++ [mkMessage MessageRequest (proc threeQueued)
                              (time s')]
                 else c))
    ∧ seen s' = seen threeQueued ∧ proc s' = proc threeQueued
    ∧ lock s' = false.
Proof.
  split; [reflexivity|apply (X4_sendRequestMsg_effect threeQueued); reflexivity].
Defined.

(** X5 ([processMessage], frame): for a message [m] whose origin is a
    process of the system, [processMessage] returns and changes nothing but
    the clock, the queue, the entry of [m.Proc] in [seen] and the inbox of
    [m.Proc]: the other entries of [seen] and the other inboxes, the sizes of
    the two tables, [proc] and the mutex are as before.  A Request joins the
    queue, which keeps its entries, and a message that is neither Request nor
    Release (an Ack, or any other [Type]) leaves the queue and every inbox as
    they are. *)
Theorem X5_processMessage_frame (m : Message) (s : LamportLockState)
    (i : nat) :
  GoInt.index (Proc m) (length (seen s)) = Some i →
  length (chns s) = length (seen s) →
  ∃ s', processMessage m s = Ret tt s'
    ∧ proc s' = proc s ∧ lock s' = lock s
    ∧ length (seen s') = length (seen s)
    ∧ length (chns s') = length (chns s)
    ∧ (∀ p, p ≠ i → seen s' !! p = seen s !! p)
    ∧ (∀ p, p ≠ i → chns s' !! p = chns s !! p)
    ∧ (Type_ m = MessageRequest → reqs s' ≡ₚ m :: reqs s)
    ∧ (Type_ m ≠ MessageRequest → Type_ m ≠ MessageRelease →
       reqs s' = reqs s ∧ chns s' = chns s).
Proof.
  intros Hi Hlen.
  pose proof (processMessage_cases m s) as H. rewrite Hi in H. simpl in H.
  assert (Hic : GoInt.index (Proc m) (length (chns s)) = Some i)
    by by rewrite Hlen.
  destruct (decide (Type_ m = MessageRequest)) as [Hreq|Hreq].
  - destruct H as (q & Hq & ->).
    match goal with |- context [sendAckMsg ?t ?s0] =>
      pose proof (sendAckMsg_cases t s0) as Hack end.
    simpl in Hack. rewrite Hic in Hack. rewrite Hack.
    eexists. split; [reflexivity|]. simpl.
    split; [done|]. split; [done|]. split; [by rewrite length_insert|].
    split; [by rewrite length_alter|]. split.
    { intros p Hp. by rewrite list_lookup_insert_ne. }
    split.
    { intros p Hp. by rewrite list_lookup_alter_ne. }
    split; [done|]. intros Hne. done.
  - destruct (decide (Type_ m = MessageRelease)) as [Hrel|Hrel].
    + destruct H as (q & Hq & ->).
      eexists. split; [reflexivity|]. simpl.
      split; [done|]. split; [done|]. split; [by rewrite length_insert|].
      split; [done|]. split.
      { intros p Hp. by rewrite list_lookup_insert_ne. }
      split; [done|]. split; [done|]. intros _ Hne. done.
    + rewrite H. eexists. split; [reflexivity|]. simpl.
      split; [done|]. split; [done|]. split; [by rewrite length_insert|].
      split; [done|]. split.
      { intros p Hp. by rewrite list_lookup_insert_ne. }
      split; [done|]. split; [done|]. done.
Qed.

Lemma X5_processMessage_frame_witness :
  GoInt.index (Proc (mkMessage MessageAck 1 12)) (length (seen threeQueued))
  = Some 1%nat
  ∧ length (chns threeQueued) = length (seen threeQueued)
  ∧ ∃ s', processMessage (mkMessage MessageAck 1 12) threeQueued = Ret tt s'
      ∧ reqs s' = reqs threeQueued ∧ chns s' = chns threeQueued.
Proof.
  split; [reflexivity|]. split; [reflexivity|].
  destruct (X5_processMessage_frame (mkMessage MessageAck 1 12) threeQueued
              1%nat eq_refl eq_refl)
    as (s' & Hrun & _ & _ & _ & _ & _ & _ & _ & Hack).
  exists s'. split; [exact Hrun|].
  apply Hack; discriminate.
Defined.

Lemma holds_front_own s :
  holds s = true →
  ∃ front rest, reqs s = front :: rest ∧ Proc front = proc s
    ∧ allProcessesSeen s (Time front) = true.
Proof.
  unfold holds. destruct (reqs s) as [|front rest]; [done|].
  intros [Hp%bool_decide_eq_true Hall]%andb_true_iff. by exists front, rest.
Qed.



(** X7 ([sendRequestMsg] then [haveLock]): a request is not granted before
    the others are heard.  When the caller has no entry in the queue, the
    clock is below the largest [int], and some other process [p] has
    [seen[p]] at most the clock, [haveLock] right after [sendRequestMsg]
    returns [false]. *)
Theorem X7_request_not_granted_at_once (s : LamportLockState) (p : nat)
    (v : Z) :
  lock s = false →
  proc s ∉ Proc <$> reqs s →
  GoInt.min_int ≤ time s < GoInt.max_int →
  seen s !! p = Some v → Z.of_nat p ≠ proc s → v ≤ time s →
  ∃ s', sendRequestMsg s = Ret tt s' ∧ haveLock s' = Ret false s'.
Proof.
  intros Hl Hfresh Hr Hp Hne Hv.
  destruct (sendRequestMsg_run s Hl) as (q & Hq & Hrun). simpl in Hq, Hrun.
  eexists. split; [exact Hrun|].
  rewrite haveLock_run by done. f_equal.
  destruct (holds _) eqn:Hh; [|done].
  apply holds_front_own in Hh as (f & r & Hf & Hpf & Hall).
  simpl in Hf, Hpf, Hall.
  assert (Hin : f ∈ mkMessage MessageRequest (proc s) (GoInt.add (time s) 1)
                    :: reqs s).
  { rewrite <- Hq, Hf. left. }
  apply elem_of_cons in Hin as [->|Hin].
  - pose proof (proj1 (allProcessesSeen_spec _ _) Hall p v Hp Hne) as Hle.
    simpl in Hle. rewrite add_no_overflow in Hle by done. lia.
  - exfalso. apply Hfresh. rewrite <- Hpf. by apply list_elem_of_fmap_2.
Qed.

Lemma X7_request_not_granted_at_once_witness :
  lock (initState 0 [[]; []]) = false
  ∧ ∃ s', sendRequestMsg (initState 0 [[]; []]) = Ret tt s'
      ∧ haveLock s' = Ret false s'.
Proof.
  split; [reflexivity|].
  apply (X7_request_not_granted_at_once (initState 0 [[]; []]) 1%nat 0).
  - reflexivity.
  - simpl. intros H. inversion H.
  - unfold GoInt.min_int, GoInt.max_int. simpl. lia.
  - reflexivity.
  - simpl. lia.
  - simpl. lia.
Defined.

(** X8 ([processMessage] then [haveLock]): a held lock stays held across an
    Ack that does not go back in time.  When [haveLock] returns [true] and a
    message that is neither Request nor Release arrives from a process of
    the system, with its time at least the time of the front entry,
    [haveLock] returns [true] afterwards as well. *)
Theorem X8_ack_keeps_lock (m : Message) (s : LamportLockState) (i : nat) :
  lock s = false →
  haveLock s = Ret true s →
  Type_ m ≠ MessageRequest → Type_ m ≠ MessageRelease →
  GoInt.index (Proc m) (length (seen s)) = Some i →
  (∀ front rest, reqs s = front :: rest → Time front ≤ Time m) →
  ∃ s', processMessage m s = Ret tt s' ∧ haveLock s' = Ret true s'.
Proof.
  intros Hl Hheld Hreq Hrel Hi Hlate.
  rewrite haveLock_run in Hheld by done.
  assert (Hh : holds s = true) by (by injection Hheld).
  apply holds_front_own in Hh as (front & rest & Hq & Hown & Hall).
  pose proof (processMessage_cases m s) as H. rewrite Hi in H. simpl in H.
  rewrite !decide_False in H by done. rewrite H.
  eexists. split; [reflexivity|].
  rewrite haveLock_run by done. f_equal.
  unfold holds. simpl. rewrite Hq.
  rewrite bool_decide_true by done. simpl.
  apply allProcessesSeen_spec. simpl.
  intros p v Hp Hne.
  destruct (decide (p = i)) as [->|Hpi].
  - apply index_Some in Hi as (_ & _ & Hlt).
    rewrite list_lookup_insert_eq in Hp by done.
    injection Hp as <-. by eapply Hlate.
  - rewrite list_lookup_insert_ne in Hp by done.
    by apply (proj1 (allProcessesSeen_spec _ _) Hall p v).
Qed.

Lemma X8_ack_keeps_lock_witness :
  lock holding = false
  ∧ haveLock holding = Ret true holding
  ∧ ∃ s', processMessage (mkMessage MessageAck 1 8) holding = Ret tt s'
      ∧ haveLock s' = Ret true s'.
Proof.
  split; [reflexivity|]. split; [reflexivity|].
  apply (X8_ack_keeps_lock (mkMessage MessageAck 1 8) holding 1%nat);
    try reflexivity; try discriminate.
  intros front rest Hq. injection Hq as <- _. simpl. lia.
Defined.

End Effects.

(** ** The servicing step *)

Module Service.
Import HeapFacts QueueFacts Run Arith Outcome.

(** [serviceMessage] on a state whose mutex is free and whose [proc] is a
    position of the inboxes. *)
Lemma serviceMessage_cases s i :
  lock s = false →
  GoInt.index (proc s) (length (chns s)) = Some i →
  serviceMessage s
  = match chns s !! i with
    | Some (m :: rest) =>
        (processMessage m;; Unlock)
          (set_chns (<[i := rest]> (chns s)) (set_lock true s))
    | _ => Ret tt s
    end.
Proof.
  intros Hl Hi. unfold serviceMessage.
  rewrite bind_run. unfold Lock at 1. rewrite Hl.
  rewrite bind_run. unfold tryRecv. simpl. rewrite Hi.
  destruct (chns s !! i) as [[|m rest]|]; try reflexivity.
  all: unfold_m; simpl; by rewrite unlock_lock.
Qed.

(** Two states that differ in the inbox [i] at most. *)
Definition eqExcept (i : nat) (s t : LamportLockState) : Prop :=
  time s = time t ∧ proc s = proc t ∧ seen s = seen t ∧ reqs s = reqs t
  ∧ length (chns s) = length (chns t)
  ∧ ∀ p, p ≠ i → chns s !! p = chns t !! p.

Lemma eqExcept_refl i s : eqExcept i s s.
Proof. by repeat split. Qed.

(** [processMessage] for a message of another process neither reads nor
    writes the inbox [i]. *)
Lemma processMessage_sim i m s t j s1 :
  eqExcept i s t →
  GoInt.index (Proc m) (length (seen s)) = Some j → j ≠ i →
  processMessage m s = Ret tt s1 →
  ∃ t1, processMessage m t = Ret tt t1 ∧ eqExcept i s1 t1
    ∧ chns t1 !! i = chns t !! i ∧ lock t1 = lock t.
Proof.
  intros (Ht & Hp & Hs & Hq & Hlen & Hc) Hj Hji.
  destruct s as [tm pr sn cs rq lk], t as [tm' pr' sn' ct rq' lk'].
  simpl in *. subst tm' pr' sn' rq'.
  unfold processMessage. unfold_m. simpl. rewrite Hj. simpl.
  assert (Halter : ∀ (f : list Message → list Message) p,
            p ≠ i → alter f j cs !! p = alter f j ct !! p).
  { intros f p Hpi. rewrite !list_lookup_alter.
    case_decide; by rewrite Hc. }
  assert (Hfinish : ∀ (x y : LamportLockState),
            eqExcept i x y → chns y !! i = ct !! i →
            lock y = lk' →
            Ret tt x = Ret tt s1 →
            ∃ t1, Ret tt y = Ret tt t1 ∧ eqExcept i s1 t1
              ∧ chns t1 !! i = ct !! i ∧ lock t1 = lk').
  { intros x y Hxy Hyi Hly [= <-]. by exists y. }
  destruct (decide (Time m > tm)); simpl;
    (destruct (decide (Type_ m = MessageRequest)); simpl;
     [ destruct (heap.Push rq m) as [q|]; simpl; [|done];
       unfold sendAckMsg; unfold_m; simpl; rewrite <- Hlen;
       destruct (GoInt.index (Proc m) (length cs)) as [k|] eqn:Hk;
         simpl; [|done];
       assert (k = j) as ->
         by (apply index_Some in Hk, Hj; destruct Hk as (_ & -> & _);
             by destruct Hj as (_ & -> & _));
       apply Hfinish;
       [ repeat split; simpl; try done;
         [by rewrite !length_alter|by apply Halter]
       | simpl; by rewrite list_lookup_alter_ne
       | done ]
     | destruct (decide (Type_ m = MessageRelease)); simpl;
       [ unfold purge; simpl;
         destruct (drain rq (Proc m) []) as [[q kept]|]; [|done];
         destruct (refill kept q) as [q'|]; [|done];
         apply Hfinish; [by repeat split|done|done]
       | apply Hfinish; [by repeat split|done|done] ] ]).
Qed.

Lemma eqExcept_chns i s t box :
  eqExcept i s t → chns s !! i = Some box → chns s = <[i := box]> (chns t).
Proof.
  intros (_ & _ & _ & _ & Hlen & Hc) Hi.
  apply list_eq. intros p. destruct (decide (p = i)) as [->|Hp].
  - rewrite list_lookup_insert_eq; [done|].
    apply lookup_lt_Some in Hi. lia.
  - rewrite list_lookup_insert_ne by done. by apply Hc.
Qed.

(** One servicing step with a message of another process at the head of the
    inbox, beside [processMessage] of that message. *)
Lemma serviceMessage_consume s i m rest j :
  lock s = false →
  GoInt.index (proc s) (length (chns s)) = Some i →
  length (chns s) = length (seen s) →
  chns s !! i = Some (m :: rest) →
  GoInt.index (Proc m) (length (seen s)) = Some j → j ≠ i →
  ∃ s1 s', processMessage m s = Ret tt s1
    ∧ serviceMessage s = Ret tt s'
    ∧ eqExcept i s' s1 ∧ lock s' = false ∧ chns s' !! i = Some rest.
Proof.
  intros Hl Hi Hlen Hbox Hj Hji.
  destruct (processMessage_run m s j Hj (λ _, Hlen)) as (s1 & Hrun & _).
  rewrite (serviceMessage_cases s i Hl Hi), Hbox.
  destruct (processMessage_sim i m s
              (set_chns (<[i:=rest]> (chns s)) (set_lock true s)) j s1)
    as (t1 & Ht1 & Heq & Hbox1 & Hl1); try done.
  { repeat split; simpl; try done.
    - by rewrite length_insert.
    - intros p Hp. by rewrite list_lookup_insert_ne. }
  simpl in Hbox1, Hl1.
  exists s1, (set_lock false t1). split; [done|]. split.
  { rewrite bind_run, Ht1. unfold Unlock. by rewrite Hl1. }
  destruct Heq as (? & ? & ? & ? & ? & Hc).
  split.
  { unfold eqExcept. simpl. repeat split; try (symmetry; assumption).
    intros p Hp. symmetry. by apply Hc. }
  split; [done|]. simpl.
  rewrite Hbox1. apply list_lookup_insert_eq.
  apply lookup_lt_Some in Hbox. lia.
Qed.

(** X9 ([serviceMessage]): called with the mutex free by a peer whose [proc]
    is a position of the inboxes.  With the own inbox empty the call returns
    and changes nothing.  With a message [m] of another process of the system
    at the head of the own inbox, the call returns, the own inbox has lost
    that message and no other, and every other field and inbox is what
    [processMessage m] makes of it; the mutex is free again. *)
Theorem X9_serviceMessage (s : LamportLockState) (i : nat) :
  lock s = false →
  GoInt.index (proc s) (length (chns s)) = Some i →
  (chns s !! i = Some [] → serviceMessage s = Ret tt s)
  ∧ (∀ m rest j,
       chns s !! i = Some (m :: rest) →
       length (chns s) = length (seen s) →
       GoInt.index (Proc m) (length (seen s)) = Some j → j ≠ i →
       ∃ s1 s', processMessage m s = Ret tt s1
         ∧ serviceMessage s = Ret tt s'
         ∧ chns s' = <[i := rest]> (chns s1)
         ∧ time s' = time s1 ∧ seen s' = seen s1 ∧ reqs s' = reqs s1
         ∧ proc s' = proc s1 ∧ lock s' = false).
Proof.
  intros Hl Hi. split.
  - intros Hbox. by rewrite (serviceMessage_cases s i Hl Hi), Hbox.
  - intros m rest j Hbox Hlen Hj Hji.
    destruct (serviceMessage_consume s i m rest j)
      as (s1 & s' & Hp & Hs & Heq & Hl' & Hbox'); try done.
    exists s1, s'. split; [done|]. split; [done|].
    split; [by eapply eqExcept_chns|].
    destruct Heq as (? & ? & ? & ? & ? & ?). by repeat split.
Qed.

Lemma X9_serviceMessage_witness :
  lock (mkState 1 0 [0; 0] [[mkMessage MessageRequest 1 2]; []] [] false)
  = false
  ∧ GoInt.index 0 2 = Some 0%nat
  ∧ ∃ s', serviceMessage
            (mkState 1 0 [0; 0] [[mkMessage MessageRequest 1 2]; []] [] false)
          = Ret tt s'
      ∧ chns s' !! 0%nat = Some [] ∧ time s' = 3.
Proof.
  split; [reflexivity|]. split; [reflexivity|].
  destruct (X9_serviceMessage
              (mkState 1 0 [0; 0] [[mkMessage MessageRequest 1 2]; []] []
                 false) 0%nat eq_refl eq_refl) as [_ Hcons].
  destruct (Hcons (mkMessage MessageRequest 1 2) [] 1%nat eq_refl eq_refl
              eq_refl ltac:(discriminate))
    as (s1 & s' & Hp & Hs & Hc & Ht & _).
  exists s'. split; [exact Hs|].
  assert (Hs1 : s1 = mkState 3 0 [0; 2]
            [[mkMessage MessageRequest 1 2]; [mkMessage MessageAck 0 3]]
            [mkMessage MessageRequest 1 2] false).
  { assert (Hv : processMessage (mkMessage MessageRequest 1 2)
              (mkState 1 0 [0; 0] [[mkMessage MessageRequest 1 2]; []] []
                 false)
            = Ret tt (mkState 3 0 [0; 2]
                [[mkMessage MessageRequest 1 2]; [mkMessage MessageAck 0 3]]
                [mkMessage MessageRequest 1 2] false))
      by (vm_compute; reflexivity).
    rewrite Hv in Hp. by injection Hp. }
  rewrite Hc, Ht, Hs1. split; reflexivity.
Defined.

(** X10 ([serviceMessage], a message of unknown origin): when the message at
    the head of the own inbox has a [Proc] that is no position of [seen],
    the call panics at [state.seen[m.Proc]]: the message has been taken from
    the inbox, nothing else has changed, and the mutex is still held. *)
Theorem X10_serviceMessage_unknown_origin (s : LamportLockState) (i : nat)
    (m : Message) (rest : list Message) :
  lock s = false →
  GoInt.index (proc s) (length (chns s)) = Some i →
  chns s !! i = Some (m :: rest) →
  ¬ (0 ≤ Proc m < Z.of_nat (length (seen s))) →
  serviceMessage s
  = Stop RuntimePanic
      (mkState (time s) (proc s) (seen s) (<[i := rest]> (chns s)) (reqs s)
         true).
Proof.
  intros Hl Hi Hbox Hbad.
  rewrite (serviceMessage_cases s i Hl Hi), Hbox.
  rewrite bind_run.
  pose proof (processMessage_cases m
    (set_chns (<[i:=rest]> (chns s)) (set_lock true s))) as H.
  simpl in H. unfold GoInt.index in H. rewrite decide_False in H by done.
  by rewrite H.
Qed.

Lemma X10_serviceMessage_unknown_origin_witness :
  lock (mkState 1 0 [0; 0] [[mkMessage MessageAck 5 2]; []] [] false) = false
  ∧ GoInt.index 0 2 = Some 0%nat
  ∧ serviceMessage (mkState 1 0 [0; 0] [[mkMessage MessageAck 5 2]; []] []
                      false)
    = Stop RuntimePanic (mkState 1 0 [0; 0] [[]; []] [] true).
Proof.
  split; [reflexivity|]. split; [reflexivity|].
  apply (X10_serviceMessage_unknown_origin
           (mkState 1 0 [0; 0] [[mkMessage MessageAck 5 2]; []] [] false)
           0%nat (mkMessage MessageAck 5 2) []); try reflexivity.
  simpl. lia.
Defined.

Lemma processAll_sim i ms : ∀ s t s1,
  eqExcept i s t →
  Forall (λ m, 0 ≤ Proc m < Z.of_nat (length (seen s))
               ∧ Proc m ≠ Z.of_nat i) ms →
  processAll ms s = Ret tt s1 →
  ∃ t1, processAll ms t = Ret tt t1 ∧ eqExcept i s1 t1.
Proof.
  induction ms as [|m ms IH]; intros s t s1 Heq Hms Hrun.
  - injection Hrun as <-. by exists t.
  - apply Forall_cons in Hms as [[Hm Hmi] Hms].
    simpl in Hrun. rewrite bind_run in Hrun.
    destruct (processMessage m s) as [[] sa|] eqn:Hp; [|done].
    assert (Hj : GoInt.index (Proc m) (length (seen s))
                 = Some (Z.to_nat (Proc m))).
    { apply index_Some. split; [lia|]. split; [done|lia]. }
    destruct (processMessage_sim i m s t _ sa Heq Hj ltac:(lia) Hp)
      as (ta & Hta & Heqa & _ & _).
    assert (Hlen : length (seen sa) = length (seen s)).
    { pose proof (processMessage_cases m s) as H. rewrite Hj in H.
      simpl in H. repeat case_decide.
      - destruct H as (q & _ & H). rewrite H in Hp.
        match type of Hp with sendAckMsg ?x ?y = _ =>
          pose proof (sendAckMsg_cases x y) as Hack end.
        simpl in Hack.
        destruct (GoInt.index (Proc m) (length (chns s)));
          rewrite Hack in Hp; [|done].
        injection Hp as <-. simpl. by rewrite length_insert.
      - destruct H as (q & _ & H). rewrite H in Hp.
        injection Hp as <-. simpl. by rewrite length_insert.
      - rewrite H in Hp. injection Hp as <-. simpl.
        by rewrite length_insert. }
    destruct (IH sa ta s1 Heqa) as (t1 & Ht1 & Heq1); [by rewrite Hlen|done|].
    exists t1. split; [|done]. simpl. by rewrite bind_run, Hta.
Qed.

(** X11 ([serviceMessage] in the loop of [Start]): the servicing loop takes
    the inbox in the order of arrival.  With the messages [ms], all of other
    processes of the system, at the head of the own inbox, as many rounds
    of [serviceMessage] as there are messages return; they leave the clock,
    [seen], the queue and the other inboxes as successive calls of
    [processMessage] on [ms] do, and the own inbox with what followed [ms]. *)
Theorem X11_service_loop_is_fifo (ms : list Message) :
  ∀ (s : LamportLockState) (i : nat) (tail : list Message),
  lock s = false →
  GoInt.index (proc s) (length (chns s)) = Some i →
  length (chns s) = length (seen s) →
  chns s !! i = Some (ms ++ tail) →
  Forall (λ m, 0 ≤ Proc m < Z.of_nat (length (seen s))
               ∧ Proc m ≠ proc s) ms →
  ∃ s1 s', processAll ms s = Ret tt s1
    ∧ serviceN (length ms) s = Ret tt s'
    ∧ chns s' = <[i := tail]> (chns s1)
    ∧ time s' = time s1 ∧ seen s' = seen s1 ∧ reqs s' = reqs s1
    ∧ proc s' = proc s1 ∧ lock s' = false.
Proof.
  induction ms as [|m ms IH]; intros s i tail Hl Hi Hlen Hbox Hms.
  - exists s, s. split; [done|]. split; [done|].
    split; [|done]. by rewrite list_insert_id.
  - apply Forall_cons in Hms as [[Hm Hmi] Hms].
    assert (Hpi : proc s = Z.of_nat i).
    { apply index_Some in Hi as (? & -> & ?). lia. }
    assert (Hj : GoInt.index (Proc m) (length (seen s))
                 = Some (Z.to_nat (Proc m))).
    { apply index_Some. split; [lia|]. split; [done|lia]. }
    destruct (serviceMessage_consume s i m (ms ++ tail) _ Hl Hi Hlen Hbox Hj)
      as (sa & s'a & Hpa & Hsa & Heqa & Hla & Hboxa); [lia|].
    destruct Heqa as (Hta & Hpa' & Hsna & Hqa & Hlena & Hca).
    destruct (processMessage_run m s _ Hj (λ _, Hlen))
      as (sa' & Hpa'' & Hproc & _ & Hseen & _ & Hchns & _).
    assert (sa' = sa) as -> by congruence.
    assert (Hsl : length (seen sa) = length (seen s)).
    { by rewrite Hseen, length_insert. }
    assert (Hcl : length (chns sa) = length (chns s)).
    { rewrite Hchns. case_decide; [|done]. by rewrite length_alter. }
    destruct (IH s'a i tail) as (sb & s'b & Hpb & Hsb & Hcb & Hrest); try done.
    { rewrite Hpa', Hproc, Hlena, Hcl. done. }
    { rewrite Hlena, Hsna. congruence. }
    { rewrite Hsna, Hpa', Hproc, Hsl. done. }
    assert (Heqa : eqExcept i s'a sa) by (by repeat split).
    destruct (processAll_sim i ms s'a sa sb Heqa) as (s1 & Hp1 & Heq1);
      [|done|].
    { rewrite Hsna, Hsl. eapply Forall_impl; [done|].
      simpl. intros x [? ?]. split; [done|]. congruence. }
    exists s1, s'b. split.
    { simpl. by rewrite bind_run, Hpa. }
    split.
    { simpl. by rewrite bind_run, Hsa. }
    destruct Heq1 as (Ht1 & Hpr1 & Hsn1 & Hq1 & Hlen1 & Hc1).
    destruct Hrest as (? & ? & ? & ? & ?).
    split; [|repeat split; congruence].
    rewrite Hcb. apply list_eq. intros p.
    destruct (decide (p = i)) as [->|Hp].
    + destruct (decide (i < length (chns sb))%nat).
      * rewrite !list_lookup_insert_eq; [done|lia|lia].
      * rewrite !list_insert_ge by lia.
        rewrite !lookup_ge_None_2; [done|lia|lia].
    + rewrite !list_lookup_insert_ne by done. by apply Hc1.
Qed.

Lemma X11_service_loop_is_fifo_witness :
  lock (mkState 1 0 [0; 0]
          [[mkMessage MessageRequest 1 2; mkMessage MessageRelease 1 5]; []]
          [] false) = false
  ∧ GoInt.index 0 2 = Some 0%nat
  ∧ ∃ s1 s', processAll
               [mkMessage MessageRequest 1 2; mkMessage MessageRelease 1 5]
               (mkState 1 0 [0; 0]
                  [[mkMessage MessageRequest 1 2;
                    mkMessage MessageRelease 1 5]; []] [] false) = Ret tt s1
      ∧ serviceN 2
          (mkState 1 0 [0; 0]
             [[mkMessage MessageRequest 1 2; mkMessage MessageRelease 1 5];
              []] [] false) = Ret tt s'
      ∧ chns s' = <[0%nat := []]> (chns s1)
      ∧ time s' = time s1 ∧ seen s' = seen s1 ∧ reqs s' = reqs s1
      ∧ proc s' = proc s1 ∧ lock s' = false.
Proof.
  split; [reflexivity|]. split; [reflexivity|].
  apply (X11_service_loop_is_fifo
           [mkMessage MessageRequest 1 2; mkMessage MessageRelease 1 5]
           (mkState 1 0 [0; 0]
              [[mkMessage MessageRequest 1 2; mkMessage MessageRelease 1 5];
               []] [] false) 0%nat []); try reflexivity.
  repeat constructor; simpl; lia.
Defined.

End Service.

(** ** The system of peers *)

Module System.
Import HeapFacts QueueFacts Run Arith Outcome Service.










Lemma exec_reachable n sched : ∀ w w',
  reachable n w → exec sched w = Some w' → reachable n w'.
Proof.
  induction sched as [|[i a] sched IH]; intros w w' Hr He; simpl in He.
  - by injection He as <-.
  - destruct (wstep i a w) as [w1| |] eqn:Hs; try done.
    eapply IH; [|done]. by eapply reach_step.
Qed.




(** The schedule of two peers that ends with both past [Acquire]: peer 1
    requests; peer 0 services the request and then requests itself; peer 1
    services the Ack and its poll succeeds; peer 1 services the request of
    peer 0; peer 0 services the Ack and its poll succeeds. *)
Lemma both_holding_run :
  ∃ w, exec bothHolding (startWorld 2) = Some w
    ∧ phaseOf w 0 = Some Holding ∧ phaseOf w 1 = Some Holding
    ∧ wstep 1 DoRelease w = Halted LogFatal.
Proof.
  eexists. split; [vm_compute; reflexivity|].
  split; [reflexivity|]. split; [reflexivity|]. vm_compute. reflexivity.
Qed.


(** X14 (the system, mutual exclusion): two peers can be past [Acquire] at
    once.  A system of two peers gets to a world in which the [Acquire] of
    peer 1 has returned, peer 1 has not released, and the [Acquire] of
    peer 0 has returned as well; the [Release] of peer 1 then finds the lock
    not held and exits with [log.Fatal]. *)
Theorem X14_two_peers_both_holding :
  ∃ w, reachable 2 w
    ∧ phaseOf w 0 = Some Holding ∧ phaseOf w 1 = Some Holding
    ∧ wstep 1 DoRelease w = Halted LogFatal.
Proof.
  destruct both_holding_run as (w & He & H0 & H1 & Hrel).
  exists w. split; [|exact (conj H0 (conj H1 Hrel))].
  eapply exec_reachable; [apply reach_start|exact He].
Qed.

End System.
